(** * Trial sequence generators of [relational/run.py]

    A shallow embedding of [gen_wm_trials] and [gen_main_trials] together
    with the parts of Python's [random.Random] they call, followed by the
    properties of the generated trial lists. *)

From Stdlib Require Import String Ascii.
From Stdlib Require Import List Arith Bool Lia ZArith.
From Stdlib Require Import Permutation ListSet QArith DecimalString.
Import ListNotations.

Local Open Scope string_scope.
Local Open Scope list_scope.
Local Open Scope nat_scope.

Set Implicit Arguments.

(** ** Outcomes of a Python computation *)

(** The built-in exceptions the generator code could raise. *)
Inductive exn : Type :=
| IndexError      (* list index / pop index out of range *)
| ValueError      (* sample larger than population, bad unpacking *)
| StopIteration.  (* next() on an exhausted iterator *)

(** A computation returns a value, raises, or (for a [while] loop that was
    given too little fuel) has not finished yet. *)
Inductive res (A : Type) : Type :=
| Ok (a : A)
| Raise (e : exn)
| Diverge.

Arguments Ok {A} a.
Arguments Raise {A} e.
Arguments Diverge {A}.

Definition bind_res {A B} (c : res A) (k : A -> res B) : res B :=
  match c with
  | Ok a => k a
  | Raise e => Raise e
  | Diverge => Diverge
  end.

Declare Scope res_scope.
Delimit Scope res_scope with res.
Notation "x <- c ;; k" := (bind_res c (fun x => k))
  (at level 61, c at next level, right associativity) : res_scope.
Notation "' pat <- c ;; k" := (bind_res c (fun x => match x with pat => k end))
  (at level 61, pat pattern, c at next level, right associativity) : res_scope.

(** ** Python list operations *)

Section PyList.
Context {A : Type}.

(** [l[i]] for [i >= 0]. *)
Definition getitem (l : list A) (i : nat) : res A :=
  match nth_error l i with
  | Some a => Ok a
  | None => Raise IndexError
  end.

(** [l[z]] for an arbitrary integer: a negative index counts from the end. *)
Definition getitem_Z (l : list A) (z : Z) : res A :=
  if (z <? 0)%Z then
    if (z + Z.of_nat (length l) <? 0)%Z then Raise IndexError
    else getitem l (Z.to_nat (z + Z.of_nat (length l)))
  else getitem l (Z.to_nat z).

(** [l[i] = v]; only used after [l[i]] has been read, so in range. *)
Fixpoint setitem (l : list A) (i : nat) (v : A) : list A :=
  match l, i with
  | [], _ => []
  | _ :: t, 0 => v :: t
  | h :: t, S i' => h :: setitem t i' v
  end.

(** [x[i], x[j] = x[j], x[i]]: both reads, then the two stores in order. *)
Definition swap (x : list A) (i j : nat) : res (list A) :=
  (xj <- getitem x j ;;
   xi <- getitem x i ;;
   Ok (setitem (setitem x i xj) j xi))%res.

(** The list without its [i]-th element. *)
Fixpoint remove_at (l : list A) (i : nat) : list A :=
  match l, i with
  | [], _ => []
  | _ :: t, 0 => t
  | h :: t, S i' => h :: remove_at t i'
  end.

(** [l.pop(z)]: the removed element and the list that remains. *)
Definition pop (l : list A) (z : Z) : res (A * list A) :=
  let i := if (z <? 0)%Z then (z + Z.of_nat (length l))%Z else z in
  if (i <? 0)%Z then Raise IndexError
  else (a <- getitem l (Z.to_nat i) ;; Ok (a, remove_at l (Z.to_nat i)))%res.

(** [enumerate(l)] as an explicit list, counting from [start]. *)
Definition enumerate_from (start : nat) (l : list A) : list (nat * A) :=
  combine (seq start (length l)) l.

(** [l * n]. *)
Fixpoint repeat_list (l : list A) (n : nat) : list A :=
  match n with
  | 0 => []
  | S n' => l ++ repeat_list l n'
  end.

(** [itertools.permutations(xs, 2)]: ordered pairs taken at two different
    positions, in lexicographic order of the positions. *)
Definition permutations2 (xs : list A) : list (A * A) :=
  let ixs := enumerate_from 0 xs in
  flat_map (fun ia =>
    flat_map (fun jb =>
      if fst ia =? fst jb then [] else [(snd ia, snd jb)]) ixs) ixs.

End PyList.

(** Evaluate a list of computations in order, stopping at the first that
    does not return. *)
Fixpoint map_res {A B} (f : A -> res B) (l : list A) : res (list B) :=
  match l with
  | [] => Ok []
  | a :: l' => (b <- f a ;; bs <- map_res f l' ;; Ok (b :: bs))%res
  end.

(** A set of strings built by adding the elements one at a time. *)
Definition set_of (l : list string) : set string :=
  fold_left (fun s r => set_add string_dec r s) l (empty_set string).

(** [sep.join(parts)]. *)
Definition join (sep : string) (parts : list string) : string :=
  String.concat sep parts.

(** [s.split(sep)] for a one-character separator. *)
Fixpoint split_on (sep : ascii) (s : string) : list string :=
  match s with
  | EmptyString => [EmptyString]
  | String c s' =>
      if Ascii.eqb c sep then EmptyString :: split_on sep s'
      else match split_on sep s' with
           | [] => [String c EmptyString]
           | w :: ws => String c w :: ws
           end
  end.

(** ** The random number generator

    [random.Random] is CPython library code (a Mersenne Twister); the
    generators only reach it through [shuffle] and [sample], which in turn
    only draw numbers with [_randbelow(n)], an integer in [range(n)] for
    [n > 0].  The stream itself is kept abstract. *)

Class RandomGen : Type := {
  rng_state : Type;
  (** [random.Random(seed)] *)
  Random : Z -> rng_state;
  (** [self._randbelow(n)] with the generator's next state *)
  randbelow : nat -> rng_state -> nat * rng_state;
  randbelow_lt : forall n s, 0 < n -> fst (randbelow n s) < n
}.

Section Rand.
Context {G : RandomGen}.

(** Methods of one [random.Random] object: state passing over its state. *)
Definition Rand (A : Type) : Type := rng_state -> res (A * rng_state).

Definition ret_rand {A} (a : A) : Rand A := fun s => Ok (a, s).

Definition bind_rand {A B} (c : Rand A) (k : A -> Rand B) : Rand B :=
  fun s =>
    match c s with
    | Ok (a, s') => k a s'
    | Raise e => Raise e
    | Diverge => Diverge
    end.

Definition lift_res {A} (c : res A) : Rand A :=
  fun s =>
    match c with
    | Ok a => Ok (a, s)
    | Raise e => Raise e
    | Diverge => Diverge
    end.

Definition draw (n : nat) : Rand nat := fun s => Ok (randbelow n s).

End Rand.

Declare Scope rand_scope.
Delimit Scope rand_scope with rand.
Notation "x <- c ;; k" := (bind_rand c (fun x => k))
  (at level 61, c at next level, right associativity) : rand_scope.
Notation "x <~ c ;; k" := (bind_rand (lift_res c) (fun x => k))
  (at level 61, c at next level, right associativity) : rand_scope.

Section RandomMethods.
Context {G : RandomGen} {A : Type}.

(** [Random.shuffle(x)]:
<<
    for i in reversed(range(1, len(x))):
        j = randbelow(i + 1)
        x[i], x[j] = x[j], x[i]
>>
    [shuffle_from i x] runs the iterations [i, i-1, ..., 1]. *)
Fixpoint shuffle_from (i : nat) (x : list A) : Rand (list A) :=
  match i with
  | 0 => ret_rand x
  | S i' =>
      (j <- draw (i + 1) ;;
       x' <~ swap x i j ;;
       shuffle_from i' x')%rand
  end.

Definition shuffle (x : list A) : Rand (list A) :=
  shuffle_from (length x - 1) x.

(** [Random.sample(population, k)], the branch for a population of at
    most 21 elements and [k <= 5] (a copy of the population is drawn
    from in place):
<<
    n = len(population)
    if not 0 <= k <= n: raise ValueError
    result = [None] * k
    pool = list(population)
    for i in range(k):
        j = randbelow(n - i)
        result[i] = pool[j]
        pool[j] = pool[n - i - 1]
    return result
>>
    [sample_from todo i n pool] runs the iterations [i, ..., i+todo-1]. *)
Fixpoint sample_from (todo i n : nat) (pool : list A) : Rand (list A) :=
  match todo with
  | 0 => ret_rand []
  | S todo' =>
      (j <- draw (n - i) ;;
       v <~ getitem pool j ;;
       moved <~ getitem pool (n - i - 1) ;;
       rest <- sample_from todo' (S i) n (setitem pool j moved) ;;
       ret_rand (v :: rest))%rand
  end.

Definition sample (population : list A) (k : nat) : Rand (list A) :=
  let n := length population in
  if k <=? n then sample_from k 0 n population
  else lift_res (Raise ValueError).

End RandomMethods.

Fixpoint map_rand {G : RandomGen} {A B} (f : A -> Rand B) (l : list A)
  : Rand (list B) :=
  match l with
  | [] => ret_rand []
  | a :: l' => (b <- f a ;; bs <- map_rand f l' ;; ret_rand (b :: bs))%rand
  end.

(** ** The interpreter state outside the generators *)

(** What a function of [run.py] could reach besides its arguments: the
    state of the module-level generator of [random] (used by
    [make_slot_mapping]) and the lines written through [logging]. *)
Record World {G : RandomGen} : Type := {
  global_random : rng_state;
  log_lines : list string
}.

Definition Prog {G : RandomGen} (A : Type) : Type := World -> res (A * World).

(** Run the methods of a fresh [random.Random(seed)] object; the object is
    local, so nothing of it is left in the world afterwards. *)
Definition with_Random {G : RandomGen} {A} (seed : Z) (c : Rand A) : Prog A :=
  fun w =>
    match c (Random seed) with
    | Ok (a, _) => Ok (a, w)
    | Raise e => Raise e
    | Diverge => Diverge
    end.

(** The value a program returns, when it returns. *)
Definition returned {G : RandomGen} {A} (r : res (A * World)) : option A :=
  match r with
  | Ok (a, _) => Some a
  | _ => None
  end.

(** ** Constants of [run.py] *)

Definition STIM_NAMES : list string :=
  ["circle"; "rectangle"; "star"; "triangle"].

(** [[1.0, 2.5]]: both literals are exact, and they are only stored. *)
Definition WM_ISI_CONDITIONS : list Q := [1%Q; (5 # 2)%Q].
Definition WM_REPS : nat := 3.
Definition RULE_REPS : nat := 5.
Definition MAX_STREAK : nat := 3.

(** ** Trial records (Python dicts with a fixed key set) *)

Module WmTrial.
Record t : Type := mk { sample_stim : string; isi_condition : Q }.
End WmTrial.

Module Cfg.
Record t : Type := mk { A_stim : string; B_stim : string; rule_type : string }.
End Cfg.

Module Trial.
Record t : Type := mk {
  rule_type : string;
  A_stim : string;
  B_stim : string;
  A_prime : string;
  B_prime : string;
  rule_sequence : string;
  test_sequence : string;
  correct_next_stim : string
}.
End Trial.

(** [make_slot_mapping]: shuffles a copy of [STIM_NAMES] with the
    module-level generator. *)
Definition make_slot_mapping {G : RandomGen} : Prog (list string) :=
  fun w =>
    match shuffle STIM_NAMES (global_random w) with
    | Ok (mapping, s') =>
        Ok (mapping, {| global_random := s'; log_lines := log_lines w |})
    | Raise e => Raise e
    | Diverge => Diverge
    end.

(** ** [gen_wm_trials] *)

(** The list comprehension: stimulus, then ISI condition, then repetition. *)
Definition wm_cells (reps : nat) : list WmTrial.t :=
  flat_map (fun stim =>
    flat_map (fun isi =>
      map (fun _ => WmTrial.mk stim isi) (seq 0 reps))
      WM_ISI_CONDITIONS)
    STIM_NAMES.

Definition gen_wm_trials {G : RandomGen} (seed : Z) : Prog (list WmTrial.t) :=
  with_Random seed (shuffle (wm_cells WM_REPS)).

(** ** [gen_main_trials] *)

Definition configs : list Cfg.t :=
  flat_map (fun ab =>
    map (fun rule => Cfg.mk (fst ab) (snd ab) rule) ["ABA"; "ABB"])
    (permutations2 STIM_NAMES).

Section MainGenerator.
Context {G : RandomGen}.

(** The two module constants the construction depends on. *)
Variables (rule_reps max_streak : nat).

Definition base : list Cfg.t := repeat_list configs rule_reps.

(** [{base[placed[-(i + 1)]]['rule_type'] for i in range(MAX_STREAK)}] *)
Definition tail_rules (placed : list nat) : res (set string) :=
  (rs <- map_res (fun i =>
           idx <- getitem_Z placed (- (Z.of_nat i + 1)) ;;
           cfg <- getitem base idx ;;
           Ok (Cfg.rule_type cfg)) (seq 0 max_streak) ;;
   Ok (set_of rs))%res.

(** The value of [forbidden] once the first [if] of the loop body is done;
    [next(iter(tail))] is the first element of the set. *)
Definition forbidden_rule (placed : list nat) : res (option string) :=
  if max_streak <=? length placed then
    (tail <- tail_rules placed ;;
     if length tail =? 1 then
       match tail with
       | r :: _ => Ok (Some r)
       | [] => Raise StopIteration
       end
     else Ok None)%res
  else Ok None.

(** The [for pos, idx in enumerate(pool)] search; [-1] when it finds
    nothing.  [base[idx]] is only read when a rule is forbidden. *)
Fixpoint find_first (forbidden : option string) (en : list (nat * nat))
  : res Z :=
  match en with
  | [] => Ok (-1)%Z
  | (pos, idx) :: rest =>
      (ok <- match forbidden with
             | None => Ok true
             | Some f =>
                 cfg <- getitem base idx ;;
                 Ok (negb (Cfg.rule_type cfg =? f)%string)
             end ;;
       if (ok : bool) then Ok (Z.of_nat pos) else find_first forbidden rest)%res
  end.

(** The [while pool:] loop; returns [placed] as the loop leaves it. *)
Fixpoint place_loop (fuel : nat) (placed pool : list nat) : res (list nat) :=
  match pool with
  | [] => Ok placed
  | _ :: _ =>
      match fuel with
      | 0 => Diverge
      | S fuel' =>
          (forbidden <- forbidden_rule placed ;;
           found <- find_first forbidden (enumerate_from 0 pool) ;;
           if (found =? -1)%Z then Ok placed
           else
             ' (idx, pool') <- pop pool found ;;
             place_loop fuel' (placed ++ [idx]) pool')%res
      end
  end.

(** The [for _ in range(200)] loop with [n] iterations left.  [indices]
    is shuffled in place, so each attempt starts from the order the
    previous one left.  Returns [result] and [indices]. *)
Fixpoint restart_loop (n : nat) (indices : list nat)
  : Rand (option (list nat) * list nat) :=
  match n with
  | 0 => ret_rand (None, indices)
  | S n' =>
      (indices' <- shuffle indices ;;
       placed <~ place_loop (length indices') [] indices' ;;
       if length placed =? length base then ret_rand (Some placed, indices')
       else restart_loop n' indices')%rand
  end.

(** Everything up to and including the [for] loop. *)
Definition construct : Rand (option (list nat) * list nat) :=
  restart_loop 200 (seq 0 (length base)).

(** One iteration of the final [for idx in result] loop. *)
Definition make_trial (idx : nat) : Rand Trial.t :=
  (cfg <~ getitem base idx ;;
   let a := Cfg.A_stim cfg in
   let b := Cfg.B_stim cfg in
   let rule := Cfg.rule_type cfg in
   let rule_seq := if (rule =? "ABA")%string then [a; b; a] else [a; b; b] in
   primes <- sample STIM_NAMES 2 ;;
   match primes with
   | [a_prime; b_prime] =>
       let correct := if (rule =? "ABA")%string then a_prime else b_prime in
       ret_rand {| Trial.rule_type := rule;
                   Trial.A_stim := a;
                   Trial.B_stim := b;
                   Trial.A_prime := a_prime;
                   Trial.B_prime := b_prime;
                   Trial.rule_sequence := join "," rule_seq;
                   Trial.test_sequence := a_prime ++ "," ++ b_prime;
                   Trial.correct_next_stim := correct |}
   | _ => lift_res (Raise ValueError)
   end)%rand.

(** The body of [gen_main_trials] on its generator [rng]. *)
Definition main_trials : Rand (list Trial.t) :=
  (ri <- construct ;;
   let result := match fst ri with
                 | Some placed => placed
                 | None => snd ri
                 end in
   map_rand make_trial result)%rand.

Definition gen_main_trials_with (seed : Z) : Prog (list Trial.t) :=
  with_Random seed main_trials.

End MainGenerator.

(** [gen_main_trials(seed)] with the constants as [run.py] sets them. *)
Definition gen_main_trials {G : RandomGen} (seed : Z) : Prog (list Trial.t) :=
  gen_main_trials_with RULE_REPS MAX_STREAK seed.

(** Whether the restart loop of [gen_main_trials(seed)] left [result] at
    [None], so that the fallback assignment runs. *)
Definition exhausted {G : RandomGen} (seed : Z) : bool :=
  match construct RULE_REPS MAX_STREAK (Random seed) with
  | Ok ((None, _), _) => true
  | _ => false
  end.

(** ** Two concrete generators *)

(** A linear congruential stream. *)
Definition lcg : RandomGen := {|
  rng_state := Z;
  Random := fun seed => (seed mod 2147483648)%Z;
  randbelow := fun n s =>
    let s' := ((1103515245 * s + 12345) mod 2147483648)%Z in
    (Z.to_nat (s' / 65536) mod n, s');
  randbelow_lt := fun n s Hn =>
    Nat.mod_upper_bound _ n (proj2 (Nat.neq_0_lt_0 n) Hn)
|}.

(** A scripted stream: the state counts the draws made so far; the first
    draw answers 2 and the third 0 (capped to the range), every other draw
    answers [n - 1], which makes [shuffle] leave an element where it is. *)
Definition scripted : RandomGen := {|
  rng_state := nat;
  Random := fun _ => 0;
  randbelow := fun n c =>
    (Nat.min (n - 1) (match c with 0 => 2 | 2 => 0 | _ => n - 1 end), S c);
  randbelow_lt := fun n c Hn =>
    Nat.le_lt_trans _ _ _ (Nat.le_min_l (n - 1) _)
      (Nat.sub_lt n 1 Hn Nat.lt_0_1)
|}.

Definition world0 {G : RandomGen} : World :=
  {| global_random := Random 0; log_lines := [] |}.

(** ** Specification vocabulary *)

(** The [n] elements of [l] from position [i] on. *)
Definition window {A} (l : list A) (i n : nat) : list A :=
  firstn n (skipn i l).

(** All elements of [w] carry one and the same label. *)
Definition all_same (w : list string) : Prop :=
  exists r, Forall (eq r) w.

(** No contiguous window of [K + 1] labels is constant. *)
Definition streak_bounded (K : nat) (l : list string) : Prop :=
  forall i, i + S K <= length l -> ~ all_same (window l i (S K)).

(** Length of the longest run of equal neighbours, where a run of [n]
    copies of [r] has just been read. *)
Fixpoint run_from (r : string) (n : nat) (l : list string) : nat :=
  match l with
  | [] => n
  | x :: l' =>
      if (x =? r)%string then run_from r (S n) l'
      else Nat.max n (run_from x 1 l')
  end.

Definition longest_run (l : list string) : nat :=
  match l with
  | [] => 0
  | x :: l' => run_from x 1 l'
  end.

(** The rule label of base item [idx] (empty when [idx] is no index). *)
Definition label (rule_reps idx : nat) : string :=
  match nth_error (base rule_reps) idx with
  | Some cfg => Cfg.rule_type cfg
  | None => ""
  end.

Definition labels (rule_reps : nat) (l : list nat) : list string :=
  map (label rule_reps) l.

(** The configuration a trial record was built from. *)
Definition config_of (t : Trial.t) : string * string * string :=
  (Trial.A_stim t, Trial.B_stim t, Trial.rule_type t).

Definition triple_of (c : Cfg.t) : string * string * string :=
  (Cfg.A_stim c, Cfg.B_stim c, Cfg.rule_type c).

(** The configuration space as the specification words it: an ordered
    pair of different stimuli of the alphabet, with either rule kind. *)
Definition in_config_space (x : string * string * string) : bool :=
  let '(a, b, r) := x in
  existsb (String.eqb a) STIM_NAMES && existsb (String.eqb b) STIM_NAMES
  && negb (a =? b)%string && ((r =? "ABA")%string || (r =? "ABB")%string).

Definition triple_eq_dec (x y : string * string * string) : {x = y} + {x <> y}.
Proof. repeat decide equality. Defined.

Definition Q_eq_dec (p q : Q) : {p = q} + {p <> q}.
Proof. repeat decide equality. Defined.

Definition wm_cell_eq_dec (x y : string * Q) : {x = y} + {x <> y}.
Proof. repeat decide equality. Defined.

Definition wm_cell_of (t : WmTrial.t) : string * Q :=
  (WmTrial.sample_stim t, WmTrial.isi_condition t).

(** A cell of the working-memory design as the specification words it: a
    stimulus of the alphabet paired with one of the ISI conditions. *)
Definition in_wm_design (x : string * Q) : bool :=
  existsb (String.eqb (fst x)) STIM_NAMES
  && existsb (fun q => if Q_eq_dec (snd x) q then true else false)
       WM_ISI_CONDITIONS.

(** [k] successive in-place shuffles of one list. *)
Fixpoint shuffles {G : RandomGen} (k : nat) (x : list nat) : Rand (list nat) :=
  match k with
  | 0 => ret_rand x
  | S k' => (x' <- shuffle x ;; shuffles k' x')%rand
  end.

(** What the derived fields of a trial record have to be. *)
Definition derived_ok (t : Trial.t) : Prop :=
  let a := Trial.A_stim t in
  let b := Trial.B_stim t in
  let a' := Trial.A_prime t in
  let b' := Trial.B_prime t in
  Trial.test_sequence t = join "," [a'; b']
  /\ split_on "," (Trial.test_sequence t) = [a'; b']
  /\ ((Trial.rule_type t = "ABA"
       /\ Trial.rule_sequence t = join "," [a; b; a]
       /\ split_on "," (Trial.rule_sequence t) = [a; b; a]
       /\ Trial.correct_next_stim t = a')
      \/ (Trial.rule_type t = "ABB"
          /\ Trial.rule_sequence t = join "," [a; b; b]
          /\ split_on "," (Trial.rule_sequence t) = [a; b; b]
          /\ Trial.correct_next_stim t = b')).

(** A filler for positions that are no index of [base]. *)
Definition no_cfg : Cfg.t := Cfg.mk "" "" "".

(** Every element is an index of [base]. *)
Definition in_range (rule_reps : nat) (l : list nat) : Prop :=
  Forall (fun idx => idx < length (base rule_reps)) l.

(** How [make_trial] fills a record from base item [idx]. *)
Definition built_from (rule_reps idx : nat) (t : Trial.t) : Prop :=
  exists cfg,
    nth_error (base rule_reps) idx = Some cfg
    /\ Trial.rule_type t = Cfg.rule_type cfg
    /\ Trial.A_stim t = Cfg.A_stim cfg
    /\ Trial.B_stim t = Cfg.B_stim cfg
    /\ Trial.A_prime t <> Trial.B_prime t
    /\ In (Trial.A_prime t) STIM_NAMES
    /\ In (Trial.B_prime t) STIM_NAMES
    /\ Trial.rule_sequence t
       = join "," (if (Cfg.rule_type cfg =? "ABA")%string
                   then [Cfg.A_stim cfg; Cfg.B_stim cfg; Cfg.A_stim cfg]
                   else [Cfg.A_stim cfg; Cfg.B_stim cfg; Cfg.B_stim cfg])
    /\ Trial.test_sequence t
       = (Trial.A_prime t ++ "," ++ Trial.B_prime t)%string
    /\ Trial.correct_next_stim t
       = (if (Cfg.rule_type cfg =? "ABA")%string
          then Trial.A_prime t else Trial.B_prime t).

(** The reporting duty as the specification words it: when the restart
    loop of a call is exhausted, the call tells so outside its return
    value, by a line in the log. *)
Definition exhaustion_reported {G : RandomGen} (seed : Z) (w : World) : Prop :=
  exhausted seed = true ->
  exists trials w',
    gen_main_trials seed w = Ok (trials, w')
    /\ log_lines w' <> log_lines w.

(** ** The task runners

    What [run_wm_task], [run_main_task] and [show_response] compute around
    the display calls.  Clock readings and durations are floats that are
    only stored; they are carried as exact rationals. *)

Definition RESPONSE_KEYS : list string := ["1"; "2"; "3"; "4"].
Definition N_RUNS : nat := 4.
Definition TRIALS_PER_RUN : nat := 30.

Definition FIELDNAMES : list string :=
  ["block"; "sid"; "trial";
   "sample_stim"; "isi_condition";
   "rule_type"; "A_stim"; "B_stim"; "A_prime"; "B_prime"; "rule_sequence";
   "test_sequence";
   "correct_next_stim"; "slot_mapping"; "correct_stim";
   "response_key"; "response_slot"; "response_stim"; "correct"; "rt";
   "isi1"; "isi2"; "isi3"; "isi4"; "iti";
   "t_fixation"; "t_sample"; "t_delay";
   "t_rule1"; "t_rule2"; "t_rule3"; "t_test1"; "t_test2"; "t_response"].

(** A stream that always answers [n - 1]; [shuffle] then swaps every
    element with itself. *)
Definition steady : RandomGen := {|
  rng_state := unit;
  Random := fun _ => tt;
  randbelow := fun n s => (n - 1, s);
  randbelow_lt := fun n s Hn => Nat.sub_lt n 1 Hn Nat.lt_0_1
|}.

(** [int(s)] for an unsigned decimal literal; any other string raises here
    (the signs, blanks and underscores Python also accepts do not occur
    among the response keys). *)
Definition digit_of (c : ascii) : option Z :=
  let n := nat_of_ascii c in
  if (48 <=? n) && (n <=? 57) then Some (Z.of_nat (n - 48)) else None.

Fixpoint digits_value (acc : Z) (s : string) : option Z :=
  match s with
  | EmptyString => Some acc
  | String c s' =>
      match digit_of c with
      | Some d => digits_value (10 * acc + d) s'
      | None => None
      end
  end.

Definition py_int (s : string) : res Z :=
  match s with
  | EmptyString => Raise ValueError
  | _ => match digits_value 0 s with
         | Some z => Ok z
         | None => Raise ValueError
         end
  end.

(** [str(n)] for a non-negative integer. *)
Definition py_str (n : nat) : string :=
  NilEmpty.string_of_uint (Nat.to_uint n).

(** The variables the response block of a task runner sets. *)
Module Response.
Record t : Type := mk {
  response_key : option string;
  rt : option Q;
  response_slot : option Z;
  response_stim : option string;
  correct : Z
}.
End Response.

(** The [if result is not None: ... else: ...] block of both runners;
    [result] is what [event.waitKeys] gave: [None] on a timeout, else a
    list of (key, time) pairs.  [target] is [sample_stim] in the WM task
    and [correct_next] in the main task.  The two log lines are left out. *)
Definition score_response (slot_mapping : list string) (target : string)
           (result : option (list (string * Q))) : res Response.t :=
  match result with
  | Some pressed =>
      (first <- getitem pressed 0 ;;
       let response_key := fst first in
       let rt := snd first in
       response_slot <- py_int response_key ;;
       response_stim <- getitem_Z slot_mapping (response_slot - 1) ;;
       let correct := if (response_stim =? target)%string then 1%Z else 0%Z in
       Ok {| Response.response_key := Some response_key;
             Response.rt := Some rt;
             Response.response_slot := Some response_slot;
             Response.response_stim := Some response_stim;
             Response.correct := correct |})%res
  | None =>
      Ok {| Response.response_key := None;
            Response.rt := None;
            Response.response_slot := None;
            Response.response_stim := None;
            Response.correct := 0%Z |}
  end.

(** Whether pressing [key] is scored as correct. *)
Definition scores_correct (slot_mapping : list string) (target key : string)
           (rt : Q) : bool :=
  match score_response slot_mapping target (Some [(key, rt)]) with
  | Ok r => (Response.correct r =? 1)%Z
  | _ => false
  end.

(** [l[a:b]] for non-negative bounds. *)
Definition slice {A} (l : list A) (a b : nat) : list A :=
  firstn (b - a) (skipn a l).

(** [trials[run_idx * TRIALS_PER_RUN:(run_idx + 1) * TRIALS_PER_RUN]] *)
Definition run_trials {A} (trials : list A) (run_idx : nat) : list A :=
  slice trials (run_idx * TRIALS_PER_RUN) ((run_idx + 1) * TRIALS_PER_RUN).

(** [t_idx = run_idx * TRIALS_PER_RUN + t_rel] *)
Definition t_idx (run_idx t_rel : nat) : nat :=
  run_idx * TRIALS_PER_RUN + t_rel.

(** *** Dictionaries with string keys, in insertion order *)

Definition dict (V : Type) : Type := list (string * V).

(** [d[k] = v]: an existing key keeps its place. *)
Fixpoint dict_set {V} (d : dict V) (k : string) (v : V) : dict V :=
  match d with
  | [] => [(k, v)]
  | (k', v') :: d' =>
      if (k' =? k)%string then (k', v) :: d' else (k', v') :: dict_set d' k v
  end.

(** [d.get(k)]; [None] where [d[k]] raises [KeyError]. *)
Fixpoint dict_get {V} (d : dict V) (k : string) : option V :=
  match d with
  | [] => None
  | (k', v') :: d' => if (k' =? k)%string then Some v' else dict_get d' k
  end.

(** [d.update(items)] *)
Definition dict_update {V} (d : dict V) (items : list (string * V)) : dict V :=
  fold_left (fun acc kv => dict_set acc (fst kv) (snd kv)) items d.

(** [{k: v for k in keys}] *)
Definition dict_fromkeys {V} (keys : list string) (v : V) : dict V :=
  fold_left (fun acc k => dict_set acc k v) keys [].

(** [load_stimuli]: one image per stimulus name, keyed by the name; the
    image is stood for by its file name. *)
Definition load_stimuli : dict string :=
  fold_left (fun stimuli name => dict_set stimuli name (name ++ ".png")%string)
    STIM_NAMES [].

(** The five stimulus names [run_main_task] looks up for one trial, in
    display order: [rule_seq[0..2]], then [test_seq[0..1]]. *)
Definition shown_stimuli (trial : Trial.t) : res (list string) :=
  let rule_seq := split_on "," (Trial.rule_sequence trial) in
  let test_seq := split_on "," (Trial.test_sequence trial) in
  (r0 <- getitem rule_seq 0 ;;
   r1 <- getitem rule_seq 1 ;;
   r2 <- getitem rule_seq 2 ;;
   t0 <- getitem test_seq 0 ;;
   t1 <- getitem test_seq 1 ;;
   Ok [r0; r1; r2; t0; t1])%res.

(** *** The rows handed to [csv.DictWriter] *)

Inductive pyval : Type :=
| VNone
| VStr (s : string)
| VInt (z : Z)
| VFloat (q : Q).

Definition opt_val {A} (f : A -> pyval) (o : option A) : pyval :=
  match o with
  | Some a => f a
  | None => VNone
  end.

(** [DictWriter.writerow(row)] with the default [extrasaction='raise'] and
    [restval='']: a key outside the field names is a [ValueError], else the
    cells are read off in field order. *)
Definition writerow_cells (fieldnames : list string) (row : dict pyval)
  : res (list pyval) :=
  if forallb (fun kv => existsb (String.eqb (fst kv)) fieldnames) row
  then Ok (map (fun k => match dict_get row k with
                         | Some v => v
                         | None => VStr ""
                         end) fieldnames)
  else Raise ValueError.

(** The row [run_wm_task] writes for one trial. *)
Definition wm_row (sid : string) (t_idx : nat) (trial : WmTrial.t)
           (slot_mapping : list string) (r : Response.t)
           (t_fixation t_sample t_delay t_response : Q) : dict pyval :=
  let sample_stim := WmTrial.sample_stim trial in
  let isi_cond := WmTrial.isi_condition trial in
  dict_update (dict_fromkeys FIELDNAMES (VStr ""))
    [("block", VStr "WM");
     ("sid", VStr sid);
     ("trial", VInt (Z.of_nat t_idx));
     ("sample_stim", VStr sample_stim);
     ("isi_condition", VFloat isi_cond);
     ("slot_mapping", VStr (join "," slot_mapping));
     ("correct_stim", VStr sample_stim);
     ("response_key", opt_val VStr (Response.response_key r));
     ("response_slot", opt_val VInt (Response.response_slot r));
     ("response_stim", opt_val VStr (Response.response_stim r));
     ("correct", VInt (Response.correct r));
     ("rt", opt_val VFloat (Response.rt r));
     ("t_fixation", VFloat t_fixation);
     ("t_sample", VFloat t_sample);
     ("t_delay", VFloat t_delay);
     ("t_response", VFloat t_response)].

(** The clock readings and jittered durations of one main-task trial. *)
Module Timing.
Record t : Type := mk {
  isi1 : Q; isi2 : Q; isi3 : Q; isi4 : Q; iti_dur : Q;
  t_fixation : Q; t_rule1 : Q; t_rule2 : Q; t_rule3 : Q;
  t_test1 : Q; t_test2 : Q; t_response : Q
}.
End Timing.

(** The row [run_main_task] writes for one trial. *)
Definition main_row (sid : string) (run_idx t_idx : nat) (trial : Trial.t)
           (slot_mapping : list string) (r : Response.t) (tm : Timing.t)
  : dict pyval :=
  let correct_next := Trial.correct_next_stim trial in
  dict_update (dict_fromkeys FIELDNAMES (VStr ""))
    [("block", VStr ("main_run" ++ py_str (run_idx + 1)));
     ("sid", VStr sid);
     ("trial", VInt (Z.of_nat t_idx));
     ("rule_type", VStr (Trial.rule_type trial));
     ("A_stim", VStr (Trial.A_stim trial));
     ("B_stim", VStr (Trial.B_stim trial));
     ("A_prime", VStr (Trial.A_prime trial));
     ("B_prime", VStr (Trial.B_prime trial));
     ("rule_sequence", VStr (Trial.rule_sequence trial));
     ("test_sequence", VStr (Trial.test_sequence trial));
     ("correct_next_stim", VStr correct_next);
     ("slot_mapping", VStr (join "," slot_mapping));
     ("correct_stim", VStr correct_next);
     ("response_key", opt_val VStr (Response.response_key r));
     ("response_slot", opt_val VInt (Response.response_slot r));
     ("response_stim", opt_val VStr (Response.response_stim r));
     ("correct", VInt (Response.correct r));
     ("rt", opt_val VFloat (Response.rt r));
     ("isi1", VFloat (Timing.isi1 tm));
     ("isi2", VFloat (Timing.isi2 tm));
     ("isi3", VFloat (Timing.isi3 tm));
     ("isi4", VFloat (Timing.isi4 tm));
     ("iti", VFloat (Timing.iti_dur tm));
     ("t_fixation", VFloat (Timing.t_fixation tm));
     ("t_rule1", VFloat (Timing.t_rule1 tm));
     ("t_rule2", VFloat (Timing.t_rule2 tm));
     ("t_rule3", VFloat (Timing.t_rule3 tm));
     ("t_test1", VFloat (Timing.t_test1 tm));
     ("t_test2", VFloat (Timing.t_test2 tm));
     ("t_response", VFloat (Timing.t_response tm))].

(** [SLOT_X = [-0.65, -0.22, 0.22, 0.65]], the horizontal positions of
    the four response slots. *)
Definition SLOT_X : list Q :=
  [(-65 # 100)%Q; (-22 # 100)%Q; (22 # 100)%Q; (65 # 100)%Q].

(** Outcome of code that also looks keys up in a dictionary. *)
Inductive lookup_res (A : Type) : Type :=
| Found (a : A)
| Builtin (e : exn)
| KeyError (key : string).

Arguments Found {A} a.
Arguments Builtin {A} e.
Arguments KeyError {A} key.

(** The first loop of [show_response]:
<<
    for i, stim_name in enumerate(slot_mapping):
        stimuli[stim_name].pos = (SLOT_X[i], SLOT_Y)
>>
    The right-hand side is evaluated before the stimulus is looked up.
    Returns, per slot, the stimulus drawn and its horizontal position. *)
Fixpoint slot_positions (stimuli : dict string) (en : list (nat * string))
  : lookup_res (list (string * Q)) :=
  match en with
  | [] => Found []
  | (i, stim_name) :: rest =>
      match nth_error SLOT_X i with
      | None => Builtin IndexError
      | Some x =>
          match dict_get stimuli stim_name with
          | None => KeyError stim_name
          | Some _ =>
              match slot_positions stimuli rest with
              | Found ps => Found ((stim_name, x) :: ps)
              | other => other
              end
          end
      end
  end.

(** The key labels [main] creates: the label of [RESPONSE_KEYS[i]] sits at
    [SLOT_X[i]]. *)
Definition key_labels : res (list (string * Q)) :=
  map_res (fun ik => (x <- getitem SLOT_X (fst ik) ;; Ok (snd ik, x))%res)
    (enumerate_from 0 RESPONSE_KEYS).

(** A stream that replays a script of answers, each capped to the range;
    once the script is used up it answers [n - 1]. *)
Definition replay (script : list nat) : RandomGen := {|
  rng_state := list nat;
  Random := fun _ => script;
  randbelow := fun n s => (Nat.min (n - 1) (hd (n - 1) s), tl s);
  randbelow_lt := fun n s Hn =>
    Nat.le_lt_trans _ _ _ (Nat.le_min_l (n - 1) _)
      (Nat.sub_lt n 1 Hn Nat.lt_0_1)
|}.

(** Whether [script] can be the answers of the stream during one run of
    [shuffle_from i]: one answer for each step [i, i-1, ..., 1], the answer
    of step [k] among [0, ..., k]. *)
Fixpoint shuffle_answers (i : nat) (script : list nat) : bool :=
  match i, script with
  | 0, [] => true
  | S i', j :: rest => (j <=? i) && shuffle_answers i' rest
  | _, _ => false
  end.

(** [random.Random(seed).shuffle(x)] when the stream gives [answers]: the
    shuffled list and the answers not used. *)
Definition shuffle_on {A} (answers : list nat) (x : list A)
  : res (list A * list nat) :=
  @shuffle (replay answers) A x (@Random (replay answers) 0%Z).

(** The answers a stream in state [s] gives to the steps
    [i, i-1, ..., 1] of [shuffle], in the order they are asked for. *)
Fixpoint shuffle_draws {G : RandomGen} (i : nat) (s : rng_state) : list nat :=
  match i with
  | 0 => []
  | S i' =>
      fst (randbelow (i + 1) s)
      :: shuffle_draws i' (snd (randbelow (i + 1) s))
  end.

(** A filler for positions outside the WM trial list. *)
Definition no_wm_cell : WmTrial.t := WmTrial.mk "" 0%Q.

(** Neighbours in [l] always differ. *)
Fixpoint alternating (l : list string) : Prop :=
  match l with
  | x :: (y :: _) as t => x <> y /\ alternating t
  | _ => True
  end.

(** Exactly one of the response keys is scored as correct. *)
Definition one_correct_key (slot_mapping : list string) (target : string)
  : Prop :=
  exists key,
    In key RESPONSE_KEYS
    /\ forall k rt,
         In k RESPONSE_KEYS ->
         (scores_correct slot_mapping target k rt = true <-> k = key).

(** The columns only the main task fills, and those only the WM task
    fills. *)
Definition main_only_fields : list string :=
  ["rule_type"; "A_stim"; "B_stim"; "A_prime"; "B_prime"; "rule_sequence";
   "test_sequence"; "correct_next_stim";
   "isi1"; "isi2"; "isi3"; "isi4"; "iti";
   "t_rule1"; "t_rule2"; "t_rule3"; "t_test1"; "t_test2"].

Definition wm_only_fields : list string :=
  ["sample_stim"; "isi_condition"; "t_sample"; "t_delay"].

(** All elements of [w] are equal, as a test. *)
Definition all_sameb (w : list string) : bool :=
  match w with
  | [] => true
  | x :: w' => forallb (String.eqb x) w'
  end.

(** * Properties *)

Unset Implicit Arguments.

(** ** Lists *)

Section ListFacts.
Context {A : Type}.
Implicit Types (l x : list A).

Lemma getitem_ok l i : i < length l -> exists a, getitem l i = Ok a /\ nth_error l i = Some a.
Proof.
  intros H. unfold getitem.
  destruct (nth_error l i) eqn:E; [eauto|].
  apply nth_error_None in E. lia.
Qed.

Lemma getitem_inv l i a : getitem l i = Ok a -> nth_error l i = Some a.
Proof.
  unfold getitem. destruct (nth_error l i); congruence.
Qed.

Lemma setitem_length l i v : length (setitem l i v) = length l.
Proof.
  revert i; induction l as [|h t IH]; intros [|i]; simpl; auto.
Qed.

Lemma nth_error_setitem_val l i j b :
  nth_error l j = Some b -> nth_error (setitem l i b) j = Some b.
Proof.
  revert i j; induction l as [|h t IH]; intros [|i] [|j]; simpl; auto;
    try discriminate.
Qed.

Lemma setitem_perm l i a v :
  nth_error l i = Some a -> Permutation (v :: l) (a :: setitem l i v).
Proof.
  revert i; induction l as [|h t IH]; intros [|i]; simpl; try discriminate.
  - intros [= ->]. apply perm_swap.
  - intros H. rewrite perm_swap. rewrite (IH _ H). apply perm_swap.
Qed.

Lemma swap_perm x i j x' : swap x i j = Ok x' -> Permutation x x'.
Proof.
  unfold swap, bind_res.
  destruct (getitem x j) as [xj| |] eqn:Ej; try discriminate.
  destruct (getitem x i) as [xi| |] eqn:Ei; try discriminate.
  intros [= <-].
  apply getitem_inv in Ej, Ei.
  pose proof (setitem_perm _ _ _ xj Ei) as P1.
  pose proof (nth_error_setitem_val _ i _ _ Ej) as Ej'.
  pose proof (setitem_perm _ _ _ xi Ej') as P2.
  apply Permutation_cons_inv with (a := xj).
  etransitivity; [exact P1|exact P2].
Qed.

Lemma swap_ok x i j :
  i < length x -> j < length x -> exists x', swap x i j = Ok x'.
Proof.
  intros Hi Hj. unfold swap, bind_res.
  destruct (getitem_ok _ _ Hj) as (xj & -> & _).
  destruct (getitem_ok _ _ Hi) as (xi & -> & _).
  eauto.
Qed.

Lemma remove_at_perm l i a :
  nth_error l i = Some a -> Permutation l (a :: remove_at l i).
Proof.
  revert i; induction l as [|h t IH]; intros [|i]; simpl; try discriminate.
  - intros [= ->]. reflexivity.
  - intros H. rewrite perm_swap. constructor. auto.
Qed.

Lemma remove_at_0 a l : remove_at (a :: l) 0 = l.
Proof. reflexivity. Qed.

Lemma pop_nat l i a :
  nth_error l i = Some a -> pop l (Z.of_nat i) = Ok (a, remove_at l i).
Proof.
  intros H. unfold pop.
  destruct (Z.of_nat i <? 0)%Z eqn:E; [apply Z.ltb_lt in E; lia|].
  rewrite E, Nat2Z.id. unfold getitem. rewrite H. reflexivity.
Qed.

Lemma nth_seq_firstn l d k :
  k <= length l -> map (fun i => nth i l d) (seq 0 k) = firstn k l.
Proof.
  revert l; induction k as [|k IH]; intros l Hk; [reflexivity|].
  destruct l as [|a l]; simpl in Hk; [lia|].
  simpl. f_equal. rewrite <- seq_shift, map_map. apply IH. lia.
Qed.

Lemma repeat_list_length l n : length (repeat_list l n) = n * length l.
Proof.
  induction n as [|n IH]; simpl; [reflexivity|].
  rewrite length_app, IH. reflexivity.
Qed.

Lemma repeat_list_In l n a : In a (repeat_list l n) -> In a l.
Proof.
  induction n as [|n IH]; simpl; [tauto|].
  rewrite in_app_iff. tauto.
Qed.

Lemma window_app_l l l' i n :
  i + n <= length l -> window (l ++ l') i n = window l i n.
Proof.
  intros H. unfold window.
  rewrite skipn_app, firstn_app, length_skipn.
  replace (n - (length l - i)) with 0 by lia.
  rewrite firstn_0, app_nil_r. reflexivity.
Qed.

Lemma window_app_r l l' i n :
  window (l ++ l') (length l + i) n = window l' i n.
Proof.
  unfold window. rewrite skipn_app.
  rewrite skipn_all2 by lia.
  replace (length l + i - length l) with i by lia. reflexivity.
Qed.

End ListFacts.

Lemma map_res_ok {A B} (f : A -> res B) (g : A -> B) (l : list A) :
  (forall a, In a l -> f a = Ok (g a)) -> map_res f l = Ok (map g l).
Proof.
  induction l as [|a l IH]; intros H; simpl; [reflexivity|].
  rewrite (H a) by (left; reflexivity). simpl.
  rewrite IH by (intros; apply H; right; assumption). reflexivity.
Qed.

(** ** The random methods *)

Section RandFacts.
Context {G : RandomGen}.

Lemma bind_rand_draw {B} n (k : nat -> Rand B) s :
  bind_rand (draw n) k s = k (fst (randbelow n s)) (snd (randbelow n s)).
Proof.
  unfold bind_rand, draw. destruct (randbelow n s); reflexivity.
Qed.

Lemma bind_rand_lift {A B} (c : res A) a (k : A -> Rand B) s :
  c = Ok a -> bind_rand (lift_res c) k s = k a s.
Proof. intros ->. reflexivity. Qed.

Lemma bind_rand_ok {A B} (c : Rand A) a s' (k : A -> Rand B) s :
  c s = Ok (a, s') -> bind_rand c k s = k a s'.
Proof. unfold bind_rand. intros ->. reflexivity. Qed.

Lemma shuffle_from_spec {A} i (x : list A) s :
  i < length x \/ i = 0 ->
  exists x' s', shuffle_from i x s = Ok (x', s') /\ Permutation x x'.
Proof.
  revert x s; induction i as [|i IH]; intros x s Hi.
  - exists x, s. split; reflexivity.
  - cbn [shuffle_from]. rewrite bind_rand_draw.
    pose proof (@randbelow_lt _ (S i + 1) s ltac:(lia)) as Hj.
    destruct (randbelow (S i + 1) s) as [j s1]; cbn [fst snd] in *.
    destruct (swap_ok x (S i) j) as [x1 Hx1]; [lia|lia|].
    rewrite (bind_rand_lift _ _ _ _ Hx1).
    pose proof (swap_perm _ _ _ _ Hx1) as P1.
    destruct (IH x1 s1) as (x' & s' & E & P).
    { left. rewrite <- (Permutation_length P1). lia. }
    exists x', s'. split; [exact E|].
    etransitivity; eassumption.
Qed.

(** [shuffle] always returns, and returns a rearrangement of its input. *)
Lemma shuffle_spec {A} (x : list A) s :
  exists x' s', shuffle x s = Ok (x', s') /\ Permutation x x'.
Proof.
  unfold shuffle. apply shuffle_from_spec.
  destruct x; simpl; [right; reflexivity|left; lia].
Qed.

(** Two distinct stimuli are drawn, whatever the stream answers. *)
Lemma sample_STIM_NAMES s :
  exists a' b' s',
    sample STIM_NAMES 2 s = Ok ([a'; b'], s')
    /\ a' <> b' /\ In a' STIM_NAMES /\ In b' STIM_NAMES.
Proof.
  unfold sample. cbn [length STIM_NAMES Nat.leb sample_from Nat.sub].
  rewrite bind_rand_draw.
  pose proof (@randbelow_lt _ 4 s ltac:(lia)) as H0.
  destruct (randbelow 4 s) as [j0 s0]; cbn [fst snd] in *.
  assert (C0 : j0 = 0 \/ j0 = 1 \/ j0 = 2 \/ j0 = 3) by lia.
  pose proof (@randbelow_lt _ 3 s0 ltac:(lia)) as H1.
  destruct C0 as [-> | [-> | [-> | ->]]];
    cbn; unfold bind_rand, draw, lift_res, ret_rand;
    destruct (randbelow 3 s0) as [j1 s1]; cbn [fst snd] in *;
    assert (C1 : j1 = 0 \/ j1 = 1 \/ j1 = 2) by lia;
    destruct C1 as [-> | [-> | ->]]; cbn;
    do 3 eexists; (split; [reflexivity|]);
    (split; [discriminate|]); split; tauto.
Qed.

End RandFacts.

(** ** Sets of labels *)

Lemma set_of_acc_In (l : list string) acc x :
  In x acc \/ In x l ->
  In x (fold_left (fun s r => set_add string_dec r s) l acc).
Proof.
  revert acc; induction l as [|a l IH]; intros acc H; simpl.
  - destruct H as [H | []]. exact H.
  - apply IH. destruct H as [H | [-> | H]].
    + left. apply set_add_intro1. exact H.
    + left. apply set_add_intro2. reflexivity.
    + right. exact H.
Qed.

Lemma set_of_In l x : In x l -> In x (set_of l).
Proof. intros H. apply set_of_acc_In. right. exact H. Qed.

Lemma set_add_constant l r :
  Forall (eq r) l ->
  fold_left (fun s x => set_add string_dec x s) l [r] = [r].
Proof.
  induction 1 as [|a l <- _ IH]; simpl; [reflexivity|].
  destruct (string_dec r r); [exact IH|congruence].
Qed.

Lemma set_of_constant l r :
  l <> [] -> Forall (eq r) l -> set_of l = [r].
Proof.
  intros Hne Hall. unfold set_of, empty_set.
  destruct Hall as [|a l <- Hall]; [congruence|].
  simpl. apply set_add_constant. exact Hall.
Qed.

Lemma set_of_singleton l r rest :
  set_of l = r :: rest -> length (set_of l) = 1 ->
  l <> [] /\ Forall (eq r) l.
Proof.
  intros E Hlen. rewrite E in Hlen.
  destruct rest; [|discriminate].
  split.
  - intros ->. discriminate.
  - apply Forall_forall. intros x Hx.
    apply set_of_In in Hx. rewrite E in Hx.
    destruct Hx as [<- | []]. reflexivity.
Qed.

(** ** Streaks *)

Lemma streak_bounded_suffix K l1 l2 :
  streak_bounded K (l1 ++ l2) -> streak_bounded K l2.
Proof.
  intros H i Hi Hs.
  apply (H (length l1 + i)).
  - rewrite length_app. lia.
  - rewrite window_app_r. exact Hs.
Qed.

Lemma window_last {A} (l : list A) x K :
  K <= length l ->
  window (l ++ [x]) (length l - K) (S K) = skipn (length l - K) l ++ [x].
Proof.
  intros HK. unfold window.
  rewrite skipn_app.
  replace (length l - K - length l) with 0 by lia.
  rewrite skipn_0. apply firstn_all2.
  rewrite length_app, length_skipn. simpl. lia.
Qed.

(** Appending a label that does not continue a run of [K] keeps the bound. *)
Lemma streak_bounded_snoc K l x :
  streak_bounded K l ->
  ~ (K <= length l /\ Forall (eq x) (firstn K (rev l))) ->
  streak_bounded K (l ++ [x]).
Proof.
  intros Hl Hx i Hi [r Hall].
  rewrite length_app in Hi. simpl in Hi.
  destruct (Nat.le_gt_cases (i + S K) (length l)) as [Hin | Hout].
  - rewrite window_app_l in Hall by exact Hin.
    apply (Hl i Hin). exists r. exact Hall.
  - assert (HK : K <= length l) by lia.
    replace i with (length l - K) in Hall by lia.
    rewrite window_last in Hall by exact HK.
    apply Forall_app in Hall. destruct Hall as [Hpre Hlast].
    inversion Hlast as [|? ? Hr _]; subst.
    apply Hx. split; [exact HK|].
    rewrite firstn_rev. apply Forall_rev. exact Hpre.
Qed.

(** The run-length reading of the bound. *)
Lemma run_from_bounded K r n l :
  1 <= n -> streak_bounded K (repeat r n ++ l) -> n <= K ->
  run_from r n l <= K.
Proof.
  revert r n; induction l as [|x l IH]; intros r n Hn Hb HnK; simpl.
  - exact HnK.
  - destruct (String.eqb_spec x r) as [-> | Hxr].
    + assert (E : repeat r n ++ r :: l = repeat r (S n) ++ l).
      { change (repeat r (S n) ++ l) with ((r :: repeat r n) ++ l).
        rewrite (repeat_cons n r), <- app_assoc. reflexivity. }
      rewrite E in Hb.
      apply IH; [lia|exact Hb|].
      destruct (Nat.le_gt_cases (S n) K) as [|Hgt]; [assumption|].
      exfalso. assert (n = K) by lia. subst n.
      apply (Hb 0).
      * rewrite length_app, repeat_length. lia.
      * exists r. unfold window. rewrite skipn_0.
        rewrite firstn_app, repeat_length.
        replace (S K - S K) with 0 by lia.
        rewrite firstn_0, app_nil_r.
        rewrite firstn_all2 by (rewrite repeat_length; lia).
        apply Forall_forall. intros y Hy. apply repeat_spec in Hy. congruence.
    + apply Nat.max_lub; [exact HnK|].
      apply IH; [lia| |lia].
      simpl. apply streak_bounded_suffix in Hb. exact Hb.
Qed.

Lemma longest_run_bounded K l :
  1 <= K -> streak_bounded K l -> longest_run l <= K.
Proof.
  intros HK Hb. destruct l as [|x l]; simpl; [lia|].
  apply run_from_bounded; [lia|exact Hb|exact HK].
Qed.

(** ** The greedy placement *)

Section Greedy.
Variables (rule_reps max_streak : nat).

Local Abbreviation bs := (base rule_reps).
Local Abbreviation lbl := (label rule_reps).
Local Abbreviation lbls := (labels rule_reps).
Local Abbreviation in_range := (in_range rule_reps).

Lemma getitem_base idx :
  idx < length bs ->
  exists cfg, getitem bs idx = Ok cfg
              /\ nth_error bs idx = Some cfg
              /\ Cfg.rule_type cfg = lbl idx.
Proof.
  intros H. destruct (getitem_ok _ _ H) as (cfg & E & N).
  exists cfg. split; [exact E|]. split; [exact N|].
  unfold label. rewrite N. reflexivity.
Qed.

Lemma tail_rules_spec placed :
  max_streak <= length placed -> in_range placed ->
  tail_rules rule_reps max_streak placed
  = Ok (set_of (firstn max_streak (rev (lbls placed)))).
Proof.
  intros HK Hr. unfold tail_rules.
  rewrite (map_res_ok _ (fun i => lbl (nth i (rev placed) 0))).
  - simpl. f_equal. f_equal.
    rewrite <- (map_map (fun i => nth i (rev placed) 0) lbl).
    rewrite nth_seq_firstn by (rewrite length_rev; exact HK).
    unfold labels. rewrite <- map_rev, firstn_map. reflexivity.
  - intros i Hi. apply in_seq in Hi.
    assert (Hlt : i < length placed) by lia.
    unfold getitem_Z.
    destruct (- (Z.of_nat i + 1) <? 0)%Z eqn:E1;
      [|apply Z.ltb_ge in E1; lia].
    destruct (- (Z.of_nat i + 1) + Z.of_nat (length placed) <? 0)%Z eqn:E2;
      [apply Z.ltb_lt in E2; lia|].
    replace (Z.to_nat (- (Z.of_nat i + 1) + Z.of_nat (length placed)))
      with (length placed - S i) by lia.
    assert (N : nth_error placed (length placed - S i)
                = Some (nth i (rev placed) 0)).
    { pose proof (nth_error_rev i placed) as R.
      destruct (Nat.ltb_spec i (length placed)); [|lia].
      rewrite <- R. apply nth_error_nth'. rewrite length_rev. exact Hlt. }
    unfold getitem at 1. rewrite N. simpl.
    destruct (getitem_base (nth i (rev placed) 0)) as (cfg & -> & _ & L).
    + unfold in_range in Hr. rewrite Forall_forall in Hr.
      apply Hr. apply nth_error_In in N. exact N.
    + simpl. rewrite L. reflexivity.
Qed.

(** [forbidden] is set exactly when the last [max_streak] placements
    exist and share one rule. *)
Lemma forbidden_rule_spec placed :
  in_range placed ->
  exists fo,
    forbidden_rule rule_reps max_streak placed = Ok fo
    /\ (forall f, fo = Some f ->
          1 <= max_streak <= length placed
          /\ Forall (eq f) (firstn max_streak (rev (lbls placed))))
    /\ (fo = None -> 1 <= max_streak <= length placed ->
          ~ all_same (firstn max_streak (rev (lbls placed)))).
Proof.
  intros Hr. unfold forbidden_rule.
  destruct (Nat.leb_spec max_streak (length placed)) as [HK | HK].
  2:{ exists None. split; [reflexivity|]. split; [discriminate|]. lia. }
  rewrite tail_rules_spec by assumption. simpl.
  set (tl := firstn max_streak (rev (lbls placed))).
  assert (Htl : length tl = max_streak).
  { unfold tl. rewrite length_firstn, length_rev.
    unfold labels. rewrite length_map. lia. }
  destruct (Nat.eqb_spec (length (set_of tl)) 1) as [H1 | H1].
  - destruct (set_of tl) as [|r rest] eqn:E; [discriminate|].
    exists (Some r). split; [reflexivity|].
    split; [|discriminate].
    intros f [= <-].
    destruct (set_of_singleton tl r rest E) as [Hne Hall].
    { rewrite E. exact H1. }
    split; [|exact Hall].
    destruct max_streak; [|lia].
    destruct tl; [congruence|discriminate].
  - exists None. split; [reflexivity|]. split; [discriminate|].
    intros _ HK1 [r Hall]. apply H1.
    rewrite (set_of_constant tl r); [reflexivity| |exact Hall].
    intros E. rewrite E in Htl. simpl in Htl. lia.
Qed.

End Greedy.

Section GreedyLoop.
Variables (rule_reps max_streak : nat).

Local Abbreviation bs := (base rule_reps).
Local Abbreviation lbl := (label rule_reps).
Local Abbreviation lbls := (labels rule_reps).
Local Abbreviation ranged := (in_range rule_reps).

Lemma enumerate_from_cons start (idx : nat) rest :
  enumerate_from start (idx :: rest)
  = (start, idx) :: enumerate_from (S start) rest.
Proof. reflexivity. Qed.

(** A head of the pool that is not forbidden is found at once. *)
Lemma find_first_head fo start idx rest :
  idx < length bs -> fo <> Some (lbl idx) ->
  find_first rule_reps fo (enumerate_from start (idx :: rest))
  = Ok (Z.of_nat start).
Proof.
  intros Hidx Hfo. rewrite enumerate_from_cons. cbn [find_first].
  destruct fo as [f|]; [|reflexivity].
  destruct (getitem_base rule_reps idx Hidx) as (cfg & -> & _ & L).
  simpl. rewrite L.
  destruct (String.eqb_spec (lbl idx) f) as [E | _]; [|reflexivity].
  congruence.
Qed.

(** The search returns [-1] or the position of an eligible pool item. *)
Lemma find_first_spec fo pool start :
  ranged pool ->
  find_first rule_reps fo (enumerate_from start pool) = Ok (-1)%Z
  \/ exists k idx,
       find_first rule_reps fo (enumerate_from start pool)
       = Ok (Z.of_nat (start + k))
       /\ nth_error pool k = Some idx
       /\ fo <> Some (lbl idx).
Proof.
  revert start; induction pool as [|idx rest IH]; intros start Hr.
  - left. reflexivity.
  - inversion Hr as [|? ? Hidx Hrest]; subst.
    assert (D : fo <> Some (lbl idx) \/ fo = Some (lbl idx)).
    { destruct fo as [f|]; [|left; discriminate].
      destruct (string_dec f (lbl idx)) as [-> | N];
        [right; reflexivity|left; congruence]. }
    destruct D as [D | D].
    + right. exists 0, idx.
      rewrite (find_first_head _ _ _ _ Hidx D), Nat.add_0_r.
      split; [reflexivity|]. split; [reflexivity|exact D].
    + rewrite enumerate_from_cons. cbn [find_first]. subst fo.
      destruct (getitem_base rule_reps idx Hidx) as (cfg & -> & _ & L).
      simpl. rewrite L, String.eqb_refl. simpl.
      destruct (IH (S start) Hrest) as [E | (k & i & E & N & F)].
      * left. exact E.
      * right. exists (S k), i. rewrite E.
        replace (S start + k) with (start + S k) by lia.
        split; [reflexivity|]. split; [exact N|exact F].
Qed.

Lemma ranged_perm l l' : Permutation l l' -> ranged l -> ranged l'.
Proof.
  intros P H. unfold in_range in *. rewrite Forall_forall in *.
  intros x Hx. apply H. apply Permutation_sym in P.
  eapply Permutation_in; eassumption.
Qed.

(** An eligible item neither continues a run of [max_streak]. *)
Lemma eligible_no_streak fo placed idx :
  (forall f, fo = Some f ->
     1 <= max_streak <= length placed
     /\ Forall (eq f) (firstn max_streak (rev (lbls placed)))) ->
  (fo = None -> 1 <= max_streak <= length placed ->
     ~ all_same (firstn max_streak (rev (lbls placed)))) ->
  fo <> Some (lbl idx) ->
  1 <= max_streak ->
  ~ (max_streak <= length (lbls placed)
     /\ Forall (eq (lbl idx)) (firstn max_streak (rev (lbls placed)))).
Proof.
  intros HS HN Hfo HK [Hlen Hall].
  unfold labels in Hlen. rewrite length_map in Hlen.
  destruct fo as [f|].
  - destruct (HS f eq_refl) as [_ Hf].
    destruct (firstn max_streak (rev (lbls placed))) as [|x tl] eqn:E.
    + assert (L : length (firstn max_streak (rev (lbls placed))) = 0)
        by (rewrite E; reflexivity).
      rewrite length_firstn, length_rev in L.
      unfold labels in L. rewrite length_map in L. lia.
    + inversion Hf; inversion Hall; subst. congruence.
  - apply (HN eq_refl); [lia|]. exists (lbl idx). exact Hall.
Qed.

(** The [while] loop returns when given one unit of fuel per pool item; it
    moves items from the pool to [placed] and never completes a run of
    [max_streak + 1] equal rules. *)
Lemma place_loop_spec fuel :
  forall placed pool,
    length pool <= fuel -> ranged (placed ++ pool) ->
    exists placed' rest,
      place_loop rule_reps max_streak fuel placed pool = Ok placed'
      /\ Permutation (placed ++ pool) (placed' ++ rest)
      /\ (1 <= max_streak -> streak_bounded max_streak (lbls placed) ->
          streak_bounded max_streak (lbls placed')).
Proof.
  induction fuel as [|fuel IH]; intros placed pool Hfuel Hr.
  - destruct pool; [|simpl in Hfuel; lia].
    exists placed, []. simpl. repeat split; auto.
  - destruct pool as [|p0 pool0].
    { exists placed, []. simpl. repeat split; auto. }
    cbn [place_loop]. remember (p0 :: pool0) as pool eqn:Epool.
    assert (Hrp : ranged placed /\ ranged pool).
    { unfold in_range in *. apply Forall_app in Hr. exact Hr. }
    destruct Hrp as [Hrplaced Hrpool].
    destruct (forbidden_rule_spec rule_reps max_streak placed Hrplaced)
      as (fo & -> & HS & HN).
    cbn [bind_res].
    destruct (find_first_spec fo pool 0 Hrpool) as [E | (k & idx & E & N & F)];
      rewrite E; cbn [bind_res].
    + exists placed, pool. simpl. repeat split; auto.
    + destruct (Z.eqb_spec (Z.of_nat (0 + k)) (-1)%Z) as [Hneg | _]; [lia|].
      rewrite Nat.add_0_l, (pop_nat _ _ _ N). cbn [bind_res].
      pose proof (remove_at_perm _ _ _ N) as P.
      assert (P' : Permutation (placed ++ pool)
                     ((placed ++ [idx]) ++ remove_at pool k)).
      { rewrite <- app_assoc. simpl. apply Permutation_app_head. exact P. }
      destruct (IH (placed ++ [idx]) (remove_at pool k))
        as (placed' & rest & -> & P2 & S2).
      { apply Permutation_length in P. simpl in P. lia. }
      { eapply ranged_perm; eassumption. }
      exists placed', rest. split; [reflexivity|].
      split; [etransitivity; eassumption|].
      intros HK Hb. apply S2; [exact HK|].
      unfold labels. rewrite map_app. simpl.
      apply streak_bounded_snoc; [exact Hb|].
      apply eligible_no_streak with (fo := fo); assumption.
Qed.

(** More fuel than the pool is long changes nothing. *)
Lemma place_loop_fuel fuel :
  forall placed pool,
    length pool <= fuel -> ranged (placed ++ pool) ->
    place_loop rule_reps max_streak fuel placed pool
    = place_loop rule_reps max_streak (length pool) placed pool.
Proof.
  induction fuel as [|fuel IH]; intros placed pool Hfuel Hr.
  - destruct pool; [reflexivity|simpl in Hfuel; lia].
  - destruct pool as [|p0 pool0]; [reflexivity|].
    cbn [place_loop length]. remember (p0 :: pool0) as pool eqn:Epool.
    assert (Hlen : length pool = S (length pool0)) by (subst pool; reflexivity).
    assert (Hrp : ranged placed /\ ranged pool).
    { unfold in_range in *. apply Forall_app in Hr. exact Hr. }
    destruct Hrp as [Hrplaced Hrpool].
    destruct (forbidden_rule_spec rule_reps max_streak placed Hrplaced)
      as (fo & -> & _ & _).
    cbn [bind_res].
    destruct (find_first_spec fo pool 0 Hrpool) as [E | (k & idx & E & N & F)];
      rewrite E; cbn [bind_res]; [reflexivity|].
    destruct (Z.eqb_spec (Z.of_nat (0 + k)) (-1)%Z) as [Hneg | _]; [lia|].
    rewrite Nat.add_0_l, (pop_nat _ _ _ N). cbn [bind_res].
    pose proof (remove_at_perm _ _ _ N) as P.
    assert (L : length (remove_at pool k) = length pool0).
    { apply Permutation_length in P. simpl in P. lia. }
    rewrite IH.
    + rewrite L. reflexivity.
    + lia.
    + eapply ranged_perm; [|exact Hr].
      rewrite <- app_assoc. simpl. apply Permutation_app_head. exact P.
Qed.

(** On an order that already respects the bound the loop places the pool
    exactly as it comes. *)
Lemma place_loop_follows fuel :
  forall placed pool,
    length pool <= fuel -> ranged (placed ++ pool) ->
    streak_bounded max_streak (lbls (placed ++ pool)) ->
    place_loop rule_reps max_streak fuel placed pool = Ok (placed ++ pool).
Proof.
  induction fuel as [|fuel IH]; intros placed pool Hfuel Hr Hb.
  - destruct pool; [|simpl in Hfuel; lia].
    simpl. rewrite app_nil_r. reflexivity.
  - destruct pool as [|idx rest].
    { simpl. rewrite app_nil_r. reflexivity. }
    cbn [place_loop].
    assert (Hrp : ranged placed /\ ranged (idx :: rest)).
    { unfold in_range in *. apply Forall_app in Hr. exact Hr. }
    destruct Hrp as [Hrplaced Hrpool].
    assert (Hidx : idx < length bs) by (inversion Hrpool; assumption).
    destruct (forbidden_rule_spec rule_reps max_streak placed Hrplaced)
      as (fo & -> & HS & _).
    cbn [bind_res].
    assert (Hfo : fo <> Some (lbl idx)).
    { intros ->. destruct (HS _ eq_refl) as [HK Hall].
      apply (Hb (length (lbls placed) - max_streak)).
      - unfold labels. rewrite !length_map, length_app. simpl. lia.
      - exists (lbl idx).
        unfold labels at 1. rewrite map_app. simpl.
        change (map lbl placed ++ lbl idx :: map lbl rest)
          with (lbls placed ++ [lbl idx] ++ lbls rest).
        rewrite app_assoc, window_app_l.
        2:{ rewrite length_app. simpl.
            unfold labels. rewrite length_map. lia. }
        rewrite window_last by (unfold labels; rewrite length_map; lia).
        apply Forall_app. split; [|repeat constructor].
        rewrite firstn_rev in Hall. apply Forall_rev in Hall.
        rewrite rev_involutive in Hall. exact Hall. }
    rewrite (find_first_head _ _ _ _ Hidx Hfo). cbn [bind_res].
    change (Z.of_nat 0 =? -1)%Z with false. cbv iota.
    rewrite (pop_nat (idx :: rest) 0 idx eq_refl). cbn [bind_res remove_at].
    rewrite IH.
    + rewrite <- app_assoc. reflexivity.
    + simpl in Hfuel. lia.
    + rewrite <- app_assoc. exact Hr.
    + rewrite <- app_assoc. exact Hb.
Qed.

End GreedyLoop.

(** ** The restart loop *)

Lemma streak_bounded_nil K : streak_bounded K [].
Proof. intros i Hi. simpl in Hi. lia. Qed.

Lemma ranged_seq rule_reps :
  in_range rule_reps (seq 0 (length (base rule_reps))).
Proof.
  unfold in_range. apply Forall_forall. intros x Hx.
  apply in_seq in Hx. lia.
Qed.

Section Restart.
Context {G : RandomGen}.
Variables (rule_reps max_streak : nat).

Local Abbreviation bs := (base rule_reps).
Local Abbreviation lbls := (labels rule_reps).
Local Abbreviation all_indices := (seq 0 (length (base rule_reps))).

(** What one full attempt on the order [indices] yields. *)
Lemma attempt_spec indices :
  Permutation all_indices indices ->
  exists placed,
    place_loop rule_reps max_streak (length indices) [] indices = Ok placed
    /\ (length placed = length bs ->
        Permutation all_indices placed
        /\ (1 <= max_streak -> streak_bounded max_streak (lbls placed)))
    /\ (length placed <> length bs ->
        ~ streak_bounded max_streak (lbls indices)).
Proof.
  intros P.
  assert (Hr : in_range rule_reps ([] ++ indices)).
  { simpl. eapply ranged_perm; [exact P|apply ranged_seq]. }
  destruct (place_loop_spec rule_reps max_streak (length indices) [] indices
              (Nat.le_refl _) Hr) as (placed & rest & E & P2 & S2).
  exists placed. split; [exact E|]. simpl in P2. split.
  - intros Hlen. split.
    + assert (rest = []).
      { pose proof (Permutation_length P) as L1.
        pose proof (Permutation_length P2) as L2.
        rewrite length_seq in L1. rewrite length_app in L2.
        destruct rest; [reflexivity|simpl in L2; lia]. }
      subst rest. rewrite app_nil_r in P2.
      etransitivity; eassumption.
    + intros HK. apply S2; [exact HK|apply streak_bounded_nil].
  - intros Hlen Hb. apply Hlen.
    rewrite (place_loop_follows rule_reps max_streak (length indices) []
               indices (Nat.le_refl _) Hr Hb) in E.
    injection E as <-. simpl.
    rewrite <- (Permutation_length P), length_seq. reflexivity.
Qed.

(** The loop makes [k <= n] attempts, each on a fresh in-place shuffle of
    [indices]; it stops at the first attempt that places everything and
    otherwise ends with [result] still [None]. *)
Lemma restart_loop_spec n :
  forall indices s,
    Permutation all_indices indices ->
    exists result indices' s' k,
      restart_loop rule_reps max_streak n indices s
      = Ok ((result, indices'), s')
      /\ k <= n
      /\ shuffles k indices s = Ok (indices', s')
      /\ Permutation all_indices indices'
      /\ match result with
         | Some placed =>
             place_loop rule_reps max_streak (length indices') [] indices'
             = Ok placed
             /\ Permutation all_indices placed
             /\ (1 <= max_streak -> streak_bounded max_streak (lbls placed))
         | None =>
             k = n
             /\ ((n = 0 /\ indices' = indices)
                 \/ ~ streak_bounded max_streak (lbls indices'))
         end.
Proof.
  induction n as [|n IH]; intros indices s P.
  - exists None, indices, s, 0. simpl.
    repeat split; auto.
  - cbn [restart_loop].
    destruct (shuffle_spec indices s) as (i1 & s1 & Es & Ps).
    rewrite (bind_rand_ok _ _ _ _ _ Es).
    assert (P1 : Permutation all_indices i1) by (etransitivity; eassumption).
    destruct (attempt_spec i1 P1) as (placed & Ep & Hfull & Hstuck).
    rewrite (bind_rand_lift _ _ _ _ Ep).
    destruct (Nat.eqb_spec (length placed) (length bs)) as [Hlen | Hlen].
    + destruct (Hfull Hlen) as [Pp Sp].
      exists (Some placed), i1, s1, 1.
      split; [reflexivity|]. split; [lia|]. split.
      { cbn [shuffles]. rewrite (bind_rand_ok _ _ _ _ _ Es). reflexivity. }
      split; [exact P1|]. split; [exact Ep|]. split; assumption.
    + destruct (IH i1 s1 P1) as (result & indices' & s' & k & E & Hk & Sh & Pi & R).
      exists result, indices', s', (S k).
      split; [exact E|]. split; [lia|]. split.
      { cbn [shuffles]. rewrite (bind_rand_ok _ _ _ _ _ Es). exact Sh. }
      split; [exact Pi|].
      destruct result as [p|]; [exact R|].
      destruct R as [-> [[-> ->] | R]].
      * split; [reflexivity|]. right. apply Hstuck. exact Hlen.
      * split; [reflexivity|]. right. exact R.
Qed.

End Restart.

(** ** Trial records *)

Lemma configs_length : length configs = 24.
Proof. reflexivity. Qed.

Lemma configs_facts cfg :
  In cfg configs ->
  In (Cfg.A_stim cfg) STIM_NAMES /\ In (Cfg.B_stim cfg) STIM_NAMES
  /\ Cfg.A_stim cfg <> Cfg.B_stim cfg
  /\ (Cfg.rule_type cfg = "ABA" \/ Cfg.rule_type cfg = "ABB").
Proof.
  intros H. vm_compute in H.
  repeat (destruct H as [<- | H]); try contradiction;
    (split; [simpl; tauto|]); (split; [simpl; tauto|]);
    (split; [discriminate|]);
    first [left; reflexivity | right; reflexivity].
Qed.

Lemma split_join2 a b :
  In a STIM_NAMES -> In b STIM_NAMES ->
  split_on "," (join "," [a; b]) = [a; b].
Proof.
  unfold STIM_NAMES. simpl In. intros Ha Hb.
  repeat (destruct Ha as [<- | Ha]); try contradiction;
    repeat (destruct Hb as [<- | Hb]); try contradiction; reflexivity.
Qed.

Lemma split_join3 a b c :
  In a STIM_NAMES -> In b STIM_NAMES -> In c STIM_NAMES ->
  split_on "," (join "," [a; b; c]) = [a; b; c].
Proof.
  unfold STIM_NAMES. simpl In. intros Ha Hb Hc.
  repeat (destruct Ha as [<- | Ha]); try contradiction;
    repeat (destruct Hb as [<- | Hb]); try contradiction;
    repeat (destruct Hc as [<- | Hc]); try contradiction; reflexivity.
Qed.

Section Records.
Context {G : RandomGen}.
Variable rule_reps : nat.

Lemma make_trial_spec idx s :
  idx < length (base rule_reps) ->
  exists t s',
    make_trial rule_reps idx s = Ok (t, s') /\ built_from rule_reps idx t.
Proof.
  intros Hidx. unfold make_trial.
  destruct (getitem_base rule_reps idx Hidx) as (cfg & E & N & _).
  rewrite (bind_rand_lift _ _ _ _ E).
  destruct (sample_STIM_NAMES s) as (a' & b' & s' & Es & Hne & Ha & Hb).
  rewrite (bind_rand_ok _ _ _ _ _ Es).
  eexists. exists s'. split; [reflexivity|].
  exists cfg. cbn. repeat split; auto.
Qed.

Lemma map_make_trial_spec l :
  in_range rule_reps l ->
  forall s, exists ts s',
    map_rand (make_trial rule_reps) l s = Ok (ts, s')
    /\ Forall2 (built_from rule_reps) l ts.
Proof.
  induction 1 as [|idx l Hidx _ IH]; intros s.
  - exists [], s. split; [reflexivity|constructor].
  - cbn [map_rand].
    destruct (make_trial_spec idx s Hidx) as (t & s1 & E & B).
    rewrite (bind_rand_ok _ _ _ _ _ E).
    destruct (IH s1) as (ts & s2 & E2 & F).
    rewrite (bind_rand_ok _ _ _ _ _ E2).
    exists (t :: ts), s2. split; [reflexivity|].
    constructor; assumption.
Qed.

Lemma built_from_labels l ts :
  Forall2 (built_from rule_reps) l ts ->
  map Trial.rule_type ts = labels rule_reps l.
Proof.
  induction 1 as [|idx t l ts (cfg & N & R & _) _ IH]; [reflexivity|].
  simpl. rewrite IH. f_equal. unfold label. rewrite N. exact R.
Qed.

Lemma built_from_configs l ts :
  Forall2 (built_from rule_reps) l ts ->
  map config_of ts
  = map (fun idx => triple_of (nth idx (base rule_reps) no_cfg)) l.
Proof.
  induction 1 as [|idx t l ts (cfg & N & R & A & B & _) _ IH]; simpl;
    [reflexivity|].
  rewrite IH. f_equal.
  rewrite (nth_error_nth _ _ no_cfg N).
  unfold config_of, triple_of. rewrite R, A, B. reflexivity.
Qed.

Lemma built_from_distinct l ts :
  Forall2 (built_from rule_reps) l ts ->
  Forall (fun t => Trial.A_prime t <> Trial.B_prime t) ts.
Proof.
  induction 1 as [|idx t l ts (cfg & _ & _ & _ & _ & D & _) _ IH];
    constructor; assumption.
Qed.

Lemma built_from_derived l ts :
  Forall2 (built_from rule_reps) l ts -> Forall derived_ok ts.
Proof.
  induction 1 as [|idx t l ts B _ IH]; constructor; [|exact IH].
  destruct B as (cfg & N & R & A & B & _ & Ha' & Hb' & RS & TS & C).
  apply nth_error_In, repeat_list_In, configs_facts in N.
  destruct N as (HA & HB & _ & HR).
  unfold derived_ok. cbv zeta.
  split; [rewrite TS; reflexivity|].
  split; [rewrite TS; apply (split_join2 _ _ Ha' Hb')|].
  rewrite R, A, B, RS, C.
  destruct HR as [-> | ->]; [left|right]; simpl String.eqb; cbv iota;
    (split; [reflexivity|]); (split; [reflexivity|]);
    (split; [apply split_join3; assumption|reflexivity]).
Qed.

End Records.

(** ** The whole generator *)

Lemma base_length rule_reps : length (base rule_reps) = 24 * rule_reps.
Proof.
  unfold base. rewrite repeat_list_length, configs_length. lia.
Qed.

Lemma nth_seq_all {A} (l : list A) d :
  map (fun i => nth i l d) (seq 0 (length l)) = l.
Proof.
  rewrite nth_seq_firstn by lia. apply firstn_all.
Qed.

Section Whole.
Context {G : RandomGen}.
Variables (rule_reps max_streak : nat).

Local Abbreviation lbls := (labels rule_reps).
Local Abbreviation all_indices := (seq 0 (length (base rule_reps))).

(** The body of the generator, end to end. *)
Lemma main_trials_spec s :
  exists result indices s1 k trials s2,
    let order := match result with Some placed => placed | None => indices end in
    construct rule_reps max_streak s = Ok ((result, indices), s1)
    /\ k <= 200
    /\ shuffles k all_indices s = Ok (indices, s1)
    /\ Permutation all_indices indices
    /\ Permutation all_indices order
    /\ map_rand (make_trial rule_reps) order s1 = Ok (trials, s2)
    /\ main_trials rule_reps max_streak s = Ok (trials, s2)
    /\ Forall2 (built_from rule_reps) order trials
    /\ match result with
       | Some placed =>
           1 <= max_streak -> streak_bounded max_streak (lbls placed)
       | None => k = 200 /\ ~ streak_bounded max_streak (lbls indices)
       end.
Proof.
  destruct (restart_loop_spec rule_reps max_streak 200 all_indices s
              (Permutation_refl _))
    as (result & indices & s1 & k & E & Hk & Sh & Pi & R).
  set (order := match result with Some placed => placed | None => indices end).
  assert (Po : Permutation all_indices order).
  { unfold order. destruct result as [p|]; [apply R|exact Pi]. }
  assert (Hr : in_range rule_reps order).
  { eapply ranged_perm; [exact Po|apply ranged_seq]. }
  destruct (map_make_trial_spec rule_reps order Hr s1) as (ts & s2 & Em & F).
  exists result, indices, s1, k, ts, s2. cbv zeta. fold order.
  split; [exact E|]. split; [exact Hk|]. split; [exact Sh|].
  split; [exact Pi|]. split; [exact Po|]. split; [exact Em|].
  split.
  { unfold main_trials, construct.
    rewrite (bind_rand_ok _ _ _ _ _ E). exact Em. }
  split; [exact F|].
  destruct result as [p|]; [apply R|].
  destruct R as [-> [[Habs _] | R]]; [discriminate|].
  split; [reflexivity|exact R].
Qed.

(** The configurations of the output are those of [base], rearranged. *)
Lemma configs_of_order order trials :
  Permutation all_indices order ->
  Forall2 (built_from rule_reps) order trials ->
  Permutation (map triple_of (base rule_reps)) (map config_of trials).
Proof.
  intros P F.
  rewrite (built_from_configs rule_reps _ _ F).
  rewrite <- (nth_seq_all (base rule_reps) no_cfg) at 1.
  rewrite map_map. apply Permutation_map. exact P.
Qed.

End Whole.

(** ** Counting configurations *)

Lemma count_occ_repeat_list {A} (dec : forall x y : A, {x = y} + {x <> y})
      (l : list A) n x :
  count_occ dec (repeat_list l n) x = n * count_occ dec l x.
Proof.
  induction n as [|n IH]; simpl; [reflexivity|].
  rewrite count_occ_app, IH. reflexivity.
Qed.

Lemma map_repeat_list {A B} (f : A -> B) (l : list A) n :
  map f (repeat_list l n) = repeat_list (map f l) n.
Proof.
  induction n as [|n IH]; simpl; [reflexivity|].
  rewrite map_app, IH. reflexivity.
Qed.

Lemma existsb_eqb_In a (l : list string) :
  existsb (String.eqb a) l = true -> In a l.
Proof.
  intros H. apply existsb_exists in H. destruct H as (x & Hx & E).
  apply String.eqb_eq in E. subst. exact Hx.
Qed.

Lemma in_config_space_In x :
  in_config_space x = true -> In x (map triple_of configs).
Proof.
  destruct x as [[a b] r]. unfold in_config_space.
  rewrite !andb_true_iff, orb_true_iff, negb_true_iff.
  intros [[[Ha Hb] Hab] Hr].
  apply existsb_eqb_In in Ha, Hb.
  apply String.eqb_neq in Hab.
  assert (Hr' : r = "ABA" \/ r = "ABB")
    by (destruct Hr as [Hr | Hr]; apply String.eqb_eq in Hr; auto).
  clear Hr. unfold STIM_NAMES in Ha, Hb. simpl In in Ha, Hb.
  repeat (destruct Ha as [<- | Ha]); try contradiction;
    repeat (destruct Hb as [<- | Hb]); try contradiction;
    try congruence;
    destruct Hr' as [-> | ->]; vm_compute;
    repeat (first [left; reflexivity | right]).
Qed.

(** Each configuration of the space occurs once in [configs], and nothing
    else occurs there. *)
Lemma count_occ_configs x :
  count_occ triple_eq_dec (map triple_of configs) x
  = if in_config_space x then 1 else 0.
Proof.
  destruct (in_dec triple_eq_dec x (map triple_of configs)) as [Hin | Hout].
  - vm_compute in Hin.
    repeat (destruct Hin as [<- | Hin]); try contradiction; reflexivity.
  - rewrite (proj1 (count_occ_not_In triple_eq_dec _ _) Hout).
    destruct (in_config_space x) eqn:E; [|reflexivity].
    exfalso. apply Hout. apply in_config_space_In. exact E.
Qed.

Lemma count_occ_base rule_reps x :
  count_occ triple_eq_dec (map triple_of (base rule_reps)) x
  = if in_config_space x then rule_reps else 0.
Proof.
  unfold base. rewrite map_repeat_list, count_occ_repeat_list.
  rewrite count_occ_configs. destruct (in_config_space x); lia.
Qed.

Lemma in_wm_design_In x :
  in_wm_design x = true -> In x (map wm_cell_of (wm_cells WM_REPS)).
Proof.
  destruct x as [stim isi]. unfold in_wm_design. cbn [fst snd].
  rewrite andb_true_iff. intros [Hs Hq].
  apply existsb_eqb_In in Hs.
  apply existsb_exists in Hq. destruct Hq as (q & Hq & E).
  destruct (Q_eq_dec isi q) as [-> | _]; [clear E|discriminate].
  unfold STIM_NAMES in Hs. unfold WM_ISI_CONDITIONS in Hq.
  simpl In in Hs, Hq.
  repeat (destruct Hs as [<- | Hs]); try contradiction;
    repeat (destruct Hq as [<- | Hq]); try contradiction;
    vm_compute; repeat (first [left; reflexivity | right]).
Qed.

(** Each cell of the design occurs [WM_REPS] times in the list the
    comprehension builds, and nothing else occurs there. *)
Lemma count_occ_wm_cells x :
  count_occ wm_cell_eq_dec (map wm_cell_of (wm_cells WM_REPS)) x
  = if in_wm_design x then WM_REPS else 0.
Proof.
  destruct (in_dec wm_cell_eq_dec x (map wm_cell_of (wm_cells WM_REPS)))
    as [Hin | Hout].
  - vm_compute in Hin.
    repeat (destruct Hin as [<- | Hin]); try contradiction; reflexivity.
  - rewrite (proj1 (count_occ_not_In wm_cell_eq_dec _ _) Hout).
    destruct (in_wm_design x) eqn:E; [|reflexivity].
    exfalso. apply Hout. apply in_wm_design_In. exact E.
Qed.

(** ** Running a generator inside the interpreter *)

Lemma with_Random_ok {G : RandomGen} {A} seed (c : Rand A) a s' w :
  c (Random seed) = Ok (a, s') -> with_Random seed c w = Ok (a, w).
Proof. unfold with_Random. intros ->. reflexivity. Qed.

Lemma exhausted_result {G : RandomGen} seed result indices s1 :
  construct RULE_REPS MAX_STREAK (Random seed) = Ok ((result, indices), s1) ->
  exhausted seed = match result with None => true | Some _ => false end.
Proof. unfold exhausted. intros ->. destruct result; reflexivity. Qed.

Lemma parameters_total {G : RandomGen}
      (rule_reps max_streak : nat) (seed : Z) (w : World) :
  exists trials,
    gen_main_trials_with rule_reps max_streak seed w = Ok (trials, w)
    /\ length trials = 24 * rule_reps.
Proof.
  destruct (main_trials_spec rule_reps max_streak (Random seed))
    as (result & indices & s1 & k & trials & s2 & H).
  cbv zeta in H.
  destruct H as (_ & _ & _ & _ & Po & _ & Em & F & _).
  exists trials. split.
  { unfold gen_main_trials_with. apply (with_Random_ok _ _ _ _ _ Em). }
  rewrite <- (Forall2_length F), <- (Permutation_length Po), length_seq.
  apply base_length.
Qed.

Lemma generators_total_main {G : RandomGen} (seed : Z) (w : World) :
  exists trials, gen_main_trials seed w = Ok (trials, w).
Proof.
  destruct (main_trials_spec RULE_REPS MAX_STREAK (Random seed))
    as (result & indices & s1 & k & trials & s2 & H).
  cbv zeta in H.
  destruct H as (_ & _ & _ & _ & _ & _ & Em & _).
  exists trials. unfold gen_main_trials, gen_main_trials_with.
  apply (with_Random_ok _ _ _ _ _ Em).
Qed.

(** * The claims *)

(** C1 (streak bound).  For every seed on which the greedy construction of
    [gen_main_trials] succeeds, i.e. the fallback is not taken, the trial
    list is returned and no window of [MAX_STREAK + 1 = 4] consecutive
    trials carries one and the same [rule_type]; equivalently, the longest
    run of equal [rule_type] values is at most [MAX_STREAK = 3]. *)
Theorem streak_bound_on_success {G : RandomGen} (seed : Z) (w : World) :
  exhausted seed = false ->
  exists trials,
    gen_main_trials seed w = Ok (trials, w)
    /\ streak_bounded MAX_STREAK (map Trial.rule_type trials)
    /\ longest_run (map Trial.rule_type trials) <= MAX_STREAK.
Proof.
  intros Hex.
  destruct (main_trials_spec RULE_REPS MAX_STREAK (Random seed))
    as (result & indices & s1 & k & trials & s2 & H).
  cbv zeta in H.
  destruct H as (E & _ & _ & _ & _ & _ & Em & F & R).
  rewrite (exhausted_result _ _ _ _ E) in Hex.
  destruct result as [placed|]; [|discriminate].
  exists trials. split.
  { unfold gen_main_trials, gen_main_trials_with.
    apply (with_Random_ok _ _ _ _ _ Em). }
  rewrite (built_from_labels _ _ _ F).
  assert (Hb : streak_bounded MAX_STREAK (labels RULE_REPS placed))
    by (apply R; unfold MAX_STREAK; lia).
  split; [exact Hb|].
  apply longest_run_bounded; [unfold MAX_STREAK; lia|exact Hb].
Qed.

Lemma streak_bound_on_success_witness :
  @exhausted lcg 42 = false
  /\ exists trials,
       @gen_main_trials lcg 42 world0 = Ok (trials, world0)
       /\ streak_bounded MAX_STREAK (map Trial.rule_type trials)
       /\ longest_run (map Trial.rule_type trials) <= MAX_STREAK.
Proof.
  split; [vm_compute; reflexivity|].
  apply (@streak_bound_on_success lcg 42 world0).
  vm_compute; reflexivity.
Defined.

(** C2 (multiset conservation).  For every seed, on either path,
    [gen_main_trials] returns 120 trials whose [(A_stim, B_stim, rule_type)]
    triples are a rearrangement of [RULE_REPS = 5] copies of the 24
    configurations: a triple occurs 5 times when it is an ordered pair of
    different stimuli with one of the two rules, and not at all otherwise. *)
Theorem multiset_conservation {G : RandomGen} (seed : Z) (w : World) :
  exists trials,
    gen_main_trials seed w = Ok (trials, w)
    /\ Permutation (repeat_list (map triple_of configs) RULE_REPS)
         (map config_of trials)
    /\ length configs = 24
    /\ length trials = 120
    /\ forall x,
         count_occ triple_eq_dec (map config_of trials) x
         = if in_config_space x then 5 else 0.
Proof.
  destruct (main_trials_spec RULE_REPS MAX_STREAK (Random seed))
    as (result & indices & s1 & k & trials & s2 & H).
  cbv zeta in H.
  destruct H as (_ & _ & _ & _ & Po & _ & Em & F & _).
  pose proof (configs_of_order RULE_REPS _ _ Po F) as P.
  exists trials. split.
  { unfold gen_main_trials, gen_main_trials_with.
    apply (with_Random_ok _ _ _ _ _ Em). }
  split.
  { rewrite <- map_repeat_list. exact P. }
  split; [reflexivity|]. split.
  { apply Permutation_length in P. rewrite !length_map in P.
    rewrite <- P, base_length. reflexivity. }
  intros x.
  rewrite <- (proj1 (Permutation_count_occ triple_eq_dec _ _) P x).
  apply (count_occ_base RULE_REPS).
Qed.

(** C3 (determinism).  Each generator depends on its seed alone: run in
    two arbitrary interpreter states with the same seed, [gen_main_trials]
    returns the same list, and so does [gen_wm_trials]; neither changes the
    state it runs in. *)
Theorem generators_deterministic {G : RandomGen} (seed : Z) (w1 w2 : World) :
  (exists trials,
     gen_main_trials seed w1 = Ok (trials, w1)
     /\ gen_main_trials seed w2 = Ok (trials, w2))
  /\ (exists trials,
        gen_wm_trials seed w1 = Ok (trials, w1)
        /\ gen_wm_trials seed w2 = Ok (trials, w2)).
Proof.
  split.
  - destruct (main_trials_spec RULE_REPS MAX_STREAK (Random seed))
      as (result & indices & s1 & k & trials & s2 & H).
    cbv zeta in H.
    destruct H as (_ & _ & _ & _ & _ & _ & Em & _).
    exists trials. unfold gen_main_trials, gen_main_trials_with.
    split; apply (with_Random_ok _ _ _ _ _ Em).
  - destruct (shuffle_spec (wm_cells WM_REPS) (Random seed))
      as (trials & s' & E & _).
    exists trials. unfold gen_wm_trials.
    split; apply (with_Random_ok _ _ _ _ _ E).
Qed.

(** C7 (distinct probes).  For every seed, every trial record has
    [A_prime <> B_prime], both taken from [STIM_NAMES]; a probe may repeat
    a stimulus of the rule, as one run shows. *)
Theorem probes_distinct :
  (forall (G : RandomGen) (seed : Z) (w : World),
     exists trials,
       gen_main_trials seed w = Ok (trials, w)
       /\ Forall (fun t => Trial.A_prime t <> Trial.B_prime t
                           /\ In (Trial.A_prime t) STIM_NAMES
                           /\ In (Trial.B_prime t) STIM_NAMES) trials)
  /\ (exists trials,
        @gen_main_trials lcg 42 world0 = Ok (trials, world0)
        /\ existsb (fun t => (Trial.B_prime t =? Trial.A_stim t)%string)
             trials = true).
Proof.
  split.
  - intros G seed w.
    destruct (main_trials_spec RULE_REPS MAX_STREAK (Random seed))
      as (result & indices & s1 & k & trials & s2 & H).
    cbv zeta in H.
    destruct H as (_ & _ & _ & _ & _ & _ & Em & F & _).
    exists trials. split.
    { unfold gen_main_trials, gen_main_trials_with.
      apply (with_Random_ok _ _ _ _ _ Em). }
    clear Em. induction F as [|idx t l ts B _ IH]; constructor; [|exact IH].
    destruct B as (cfg & _ & _ & _ & _ & D & Ha & Hb & _).
    repeat split; assumption.
  - destruct (@generators_total_main lcg 42 world0) as [trials E].
    exists trials. split; [exact E|].
    replace trials with (match returned (@gen_main_trials lcg 42 world0) with
                         | Some ts => ts
                         | None => []
                         end) by (rewrite E; reflexivity).
    vm_compute. reflexivity.
Qed.

(** C8 (derived fields).  For every seed and every trial record,
    [rule_sequence] holds the three stimuli A,B,A when [rule_type] is ABA
    and A,B,B when it is ABB, [test_sequence] holds the pair A',B' (both
    stored joined by commas, which splitting at the commas undoes), and
    [correct_next_stim] is A' for ABA and B' for ABB. *)
Theorem derived_fields {G : RandomGen} (seed : Z) (w : World) :
  exists trials,
    gen_main_trials seed w = Ok (trials, w) /\ Forall derived_ok trials.
Proof.
  destruct (main_trials_spec RULE_REPS MAX_STREAK (Random seed))
    as (result & indices & s1 & k & trials & s2 & H).
  cbv zeta in H.
  destruct H as (_ & _ & _ & _ & _ & _ & Em & F & _).
  exists trials. split.
  { unfold gen_main_trials, gen_main_trials_with.
    apply (with_Random_ok _ _ _ _ _ Em). }
  apply (built_from_derived _ _ _ F).
Qed.

(** C10 (no failure).  For every seed both generators return a list: no
    index is out of bounds, the two-element sample is feasible, the
    placement loop ends, and the interpreter state is left as it was. *)
Theorem generators_return {G : RandomGen} (seed : Z) (w : World) :
  (exists trials, gen_main_trials seed w = Ok (trials, w))
  /\ (exists trials, gen_wm_trials seed w = Ok (trials, w)).
Proof.
  split.
  - destruct (main_trials_spec RULE_REPS MAX_STREAK (Random seed))
      as (result & indices & s1 & k & trials & s2 & H).
    cbv zeta in H.
    destruct H as (_ & _ & _ & _ & _ & _ & Em & _).
    exists trials. unfold gen_main_trials, gen_main_trials_with.
    apply (with_Random_ok _ _ _ _ _ Em).
  - destruct (shuffle_spec (wm_cells WM_REPS) (Random seed))
      as (trials & s' & E & _).
    exists trials. unfold gen_wm_trials.
    apply (with_Random_ok _ _ _ _ _ E).
Qed.

(** The scripted stream makes every one of the 200 attempts stuck. *)
Example scripted_exhausts : @exhausted scripted 0 = true.
Proof. vm_compute. reflexivity. Qed.

(** C4, as stated, fails: on the scripted stream all 200 attempts are
    stuck, yet the call returns only the trial list and leaves the log as
    it was, so nothing is reported. *)
Lemma exhaustion_not_reported :
  @exhausted scripted 0 = true
  /\ (exists trials,
        @gen_main_trials scripted 0 world0 = Ok (trials, world0))
  /\ ~ @exhaustion_reported scripted 0 world0.
Proof.
  split; [vm_compute; reflexivity|].
  destruct (@generators_total_main scripted 0 world0) as [trials E].
  split; [exists trials; exact E|].
  intros H. destruct (H ltac:(vm_compute; reflexivity)) as (ts & w' & E' & Hlog).
  rewrite E in E'. injection E' as _ <-. apply Hlog. reflexivity.
Qed.

(** C4, amended.  When all 200 attempts are stuck the call returns just
    the trial list, in an unchanged interpreter state (no flag, no log
    line); that list then has four consecutive trials of one [rule_type],
    so the degradation shows only in the returned trials themselves. *)
Theorem exhaustion_visible_in_trials_only {G : RandomGen} (seed : Z) (w : World) :
  exhausted seed = true ->
  exists trials,
    gen_main_trials seed w = Ok (trials, w)
    /\ ~ streak_bounded MAX_STREAK (map Trial.rule_type trials).
Proof.
  intros Hex.
  destruct (main_trials_spec RULE_REPS MAX_STREAK (Random seed))
    as (result & indices & s1 & k & trials & s2 & H).
  cbv zeta in H.
  destruct H as (E & _ & _ & _ & _ & _ & Em & F & R).
  rewrite (exhausted_result _ _ _ _ E) in Hex.
  destruct result as [placed|]; [discriminate|].
  exists trials. split.
  { unfold gen_main_trials, gen_main_trials_with.
    apply (with_Random_ok _ _ _ _ _ Em). }
  rewrite (built_from_labels _ _ _ F). apply R.
Qed.

Lemma exhaustion_visible_in_trials_only_witness :
  @exhausted scripted 0 = true
  /\ exists trials,
       @gen_main_trials scripted 0 world0 = Ok (trials, world0)
       /\ ~ streak_bounded MAX_STREAK (map Trial.rule_type trials).
Proof.
  split; [vm_compute; reflexivity|].
  apply (@exhaustion_visible_in_trials_only scripted 0 world0).
  vm_compute; reflexivity.
Defined.

(** C5 (bounded restarts, fallback).  [gen_main_trials] makes [k <= 200]
    attempts, each on a further in-place shuffle of the index list, and
    always returns.  When every attempt was stuck, [k = 200] and the trial
    records are built from [indices] as the 200th shuffle left it, a
    rearrangement of all 120 indices. *)
Theorem restarts_bounded_with_fallback {G : RandomGen} (seed : Z) (w : World) :
  exists result indices s1 k trials s2,
    construct RULE_REPS MAX_STREAK (Random seed) = Ok ((result, indices), s1)
    /\ k <= 200
    /\ shuffles k (seq 0 120) (Random seed) = Ok (indices, s1)
    /\ Permutation (seq 0 120) indices
    /\ gen_main_trials seed w = Ok (trials, w)
    /\ length trials = 120
    /\ match result with
       | Some placed =>
           map_rand (make_trial RULE_REPS) placed s1 = Ok (trials, s2)
       | None =>
           k = 200
           /\ map_rand (make_trial RULE_REPS) indices s1 = Ok (trials, s2)
       end.
Proof.
  destruct (main_trials_spec RULE_REPS MAX_STREAK (Random seed))
    as (result & indices & s1 & k & trials & s2 & H).
  cbv zeta in H.
  destruct H as (E & Hk & Sh & Pi & Po & Emap & Em & F & R).
  exists result, indices, s1, k, trials, s2.
  split; [exact E|]. split; [exact Hk|]. split; [exact Sh|].
  split; [exact Pi|]. split.
  { unfold gen_main_trials, gen_main_trials_with.
    apply (with_Random_ok _ _ _ _ _ Em). }
  split.
  { rewrite <- (Forall2_length F), <- (Permutation_length Po), length_seq.
    reflexivity. }
  destruct result as [placed|]; [exact Emap|].
  split; [apply R|exact Emap].
Qed.

(** C6, as stated, fails: with [MAX_STREAK = 0] no non-empty order can
    respect the bound, yet the generator accepts the setting and returns
    120 trials. *)
Lemma unsatisfiable_bound_not_rejected :
  (forall l : list string, l <> [] -> ~ streak_bounded 0 l)
  /\ exists trials,
       @gen_main_trials_with lcg RULE_REPS 0 42 world0 = Ok (trials, world0)
       /\ length trials = 120.
Proof.
  split.
  - intros l Hl Hb. destruct l as [|x l]; [congruence|].
    apply (Hb 0); [simpl; lia|].
    exists x. unfold window. simpl. repeat constructor.
  - destruct (@parameters_total lcg RULE_REPS 0 42 world0) as (trials & E & L).
    exists trials. split; [exact E|exact L].
Qed.

(** * Further properties of the generators *)

(** What every call of [gen_main_trials] returns, in one statement. *)
Lemma main_output_spec {G : RandomGen} (seed : Z) (w : World) :
  exists order trials,
    gen_main_trials seed w = Ok (trials, w)
    /\ Permutation (seq 0 (length (base RULE_REPS))) order
    /\ Forall2 (built_from RULE_REPS) order trials
    /\ Permutation (map triple_of (base RULE_REPS)) (map config_of trials).
Proof.
  destruct (main_trials_spec RULE_REPS MAX_STREAK (Random seed))
    as (result & indices & s1 & k & trials & s2 & H).
  cbv zeta in H.
  destruct H as (_ & _ & _ & _ & Po & _ & Em & F & _).
  eexists. exists trials. split.
  { unfold gen_main_trials, gen_main_trials_with.
    apply (with_Random_ok _ _ _ _ _ Em). }
  split; [exact Po|]. split; [exact F|].
  apply (configs_of_order RULE_REPS _ _ Po F).
Qed.

Lemma count_occ_perm_map {A B} (decB : forall x y : B, {x = y} + {x <> y})
      (f : A -> B) (l l' : list A) (b : B) :
  Permutation l l' ->
  count_occ decB (map f l) b = count_occ decB (map f l') b.
Proof.
  intros P.
  apply (proj1 (Permutation_count_occ decB _ _) (Permutation_map f P)).
Qed.

(** X1 (balance).  For every seed the returned trials hold each rule 60
    times, and each stimulus 30 times as [A_stim] and 30 times as
    [B_stim]. *)
Theorem main_trials_balanced {G : RandomGen} (seed : Z) (w : World) :
  exists trials,
    gen_main_trials seed w = Ok (trials, w)
    /\ count_occ string_dec (map Trial.rule_type trials) "ABA" = 60
    /\ count_occ string_dec (map Trial.rule_type trials) "ABB" = 60
    /\ Forall (fun s =>
                 count_occ string_dec (map Trial.A_stim trials) s = 30
                 /\ count_occ string_dec (map Trial.B_stim trials) s = 30)
         STIM_NAMES.
Proof.
  destruct (main_output_spec seed w) as (order & trials & E & _ & _ & P).
  exists trials. split; [exact E|].
  assert (R : map Trial.rule_type trials = map snd (map config_of trials))
    by (rewrite map_map; reflexivity).
  assert (A : map Trial.A_stim trials
              = map (fun x => fst (fst x)) (map config_of trials))
    by (rewrite map_map; reflexivity).
  assert (B : map Trial.B_stim trials
              = map (fun x => snd (fst x)) (map config_of trials))
    by (rewrite map_map; reflexivity).
  rewrite R, A, B.
  split; [rewrite <- (count_occ_perm_map string_dec snd _ _ "ABA" P);
          vm_compute; reflexivity|].
  split; [rewrite <- (count_occ_perm_map string_dec snd _ _ "ABB" P);
          vm_compute; reflexivity|].
  unfold STIM_NAMES.
  repeat (constructor;
          [split;
           [rewrite <- (count_occ_perm_map string_dec
                          (fun x => fst (fst x)) _ _ _ P)
           |rewrite <- (count_occ_perm_map string_dec
                          (fun x => snd (fst x)) _ _ _ P)];
           vm_compute; reflexivity|]).
  constructor.
Qed.

(** X2 (well-formed records).  For every seed, every returned trial has
    its [A_stim] and [B_stim] among the stimulus names and different from
    each other, one of the two rules as [rule_type], and a
    [correct_next_stim] that is a stimulus name. *)
Theorem main_trials_well_formed {G : RandomGen} (seed : Z) (w : World) :
  exists trials,
    gen_main_trials seed w = Ok (trials, w)
    /\ Forall (fun t =>
                 In (Trial.A_stim t) STIM_NAMES
                 /\ In (Trial.B_stim t) STIM_NAMES
                 /\ Trial.A_stim t <> Trial.B_stim t
                 /\ (Trial.rule_type t = "ABA" \/ Trial.rule_type t = "ABB")
                 /\ In (Trial.correct_next_stim t) STIM_NAMES) trials.
Proof.
  destruct (main_output_spec seed w) as (order & trials & E & _ & F & _).
  exists trials. split; [exact E|].
  clear E. induction F as [|idx t l ts B _ IH]; constructor; [|exact IH].
  destruct B as (cfg & N & R & A & B & _ & Ha' & Hb' & _ & _ & C).
  apply nth_error_In, repeat_list_In, configs_facts in N.
  destruct N as (HA & HB & HAB & HR).
  rewrite R, A, B, C.
  repeat split; try assumption.
  destruct (Cfg.rule_type cfg =? "ABA")%string; assumption.
Qed.

(** ** When the placement gives up *)

Section Stuck.
Variables (rule_reps max_streak : nat).

Local Abbreviation lbl := (label rule_reps).
Local Abbreviation lbls := (labels rule_reps).
Local Abbreviation ranged := (in_range rule_reps).

(** The search finds nothing only when every pool item carries the
    forbidden rule. *)
Lemma find_first_none fo pool start :
  ranged pool ->
  find_first rule_reps fo (enumerate_from start pool) = Ok (-1)%Z ->
  Forall (fun idx => fo = Some (lbl idx)) pool.
Proof.
  revert start; induction pool as [|idx rest IH]; intros start Hr E.
  - constructor.
  - inversion Hr as [|? ? Hidx Hrest]; subst.
    assert (D : fo = Some (lbl idx)).
    { destruct fo as [f|].
      - destruct (string_dec f (lbl idx)) as [-> | N]; [reflexivity|].
        rewrite (find_first_head rule_reps (Some f) start idx rest Hidx) in E
          by congruence.
        injection E as E. lia.
      - rewrite (find_first_head rule_reps None start idx rest Hidx) in E
          by discriminate.
        injection E as E. lia. }
    constructor; [exact D|].
    apply (IH (S start) Hrest).
    rewrite enumerate_from_cons in E. cbn [find_first] in E. subst fo.
    destruct (getitem_base rule_reps idx Hidx) as (cfg & Eg & _ & L).
    rewrite Eg in E. simpl in E. rewrite L, String.eqb_refl in E.
    exact E.
Qed.

Lemma place_loop_stuck fuel :
  forall placed pool,
    length pool <= fuel -> ranged (placed ++ pool) ->
    exists placed' rest,
      place_loop rule_reps max_streak fuel placed pool = Ok placed'
      /\ Permutation (placed ++ pool) (placed' ++ rest)
      /\ (rest = []
          \/ exists r,
               1 <= max_streak <= length placed'
               /\ Forall (eq r) (firstn max_streak (rev (lbls placed')))
               /\ Forall (eq r) (lbls rest)).
Proof.
  induction fuel as [|fuel IH]; intros placed pool Hfuel Hr.
  - destruct pool; [|simpl in Hfuel; lia].
    exists placed, []. simpl. split; [reflexivity|].
    split; [reflexivity|left; reflexivity].
  - destruct pool as [|p0 pool0].
    { exists placed, []. simpl. split; [reflexivity|].
      split; [reflexivity|left; reflexivity]. }
    cbn [place_loop]. remember (p0 :: pool0) as pool eqn:Epool.
    assert (Hrp : ranged placed /\ ranged pool).
    { unfold in_range in *. apply Forall_app in Hr. exact Hr. }
    destruct Hrp as [Hrplaced Hrpool].
    destruct (forbidden_rule_spec rule_reps max_streak placed Hrplaced)
      as (fo & -> & HS & _).
    cbn [bind_res].
    destruct (find_first_spec rule_reps fo pool 0 Hrpool)
      as [E | (k & idx & E & N & F)]; rewrite E; cbn [bind_res].
    + exists placed, pool. simpl. split; [reflexivity|].
      split; [reflexivity|]. right.
      pose proof (find_first_none fo pool 0 Hrpool E) as Hall.
      assert (Hp0 : fo = Some (lbl p0)).
      { rewrite Epool in Hall. inversion Hall; assumption. }
      exists (lbl p0). destruct (HS _ Hp0) as [HK Htail].
      split; [exact HK|]. split; [exact Htail|].
      unfold labels. apply Forall_map.
      eapply Forall_impl; [|exact Hall].
      intros a Ha. simpl in Ha. congruence.
    + destruct (Z.eqb_spec (Z.of_nat (0 + k)) (-1)%Z) as [Hneg | _]; [lia|].
      rewrite Nat.add_0_l, (pop_nat _ _ _ N). cbn [bind_res].
      pose proof (remove_at_perm _ _ _ N) as P.
      assert (P' : Permutation (placed ++ pool)
                     ((placed ++ [idx]) ++ remove_at pool k)).
      { rewrite <- app_assoc. simpl. apply Permutation_app_head. exact P. }
      destruct (IH (placed ++ [idx]) (remove_at pool k))
        as (placed' & rest & -> & P2 & S2).
      { apply Permutation_length in P. simpl in P. lia. }
      { eapply ranged_perm; eassumption. }
      exists placed', rest. split; [reflexivity|].
      split; [etransitivity; eassumption|exact S2].
Qed.

End Stuck.

(** X3 (when an attempt is abandoned).  One pass of the placement loop over
    an order of all base indices returns the placed items and leaves the
    rest; items are left only when the last [MAX_STREAK] placed items
    share one rule and every item left carries that same rule. *)
Theorem attempt_abandoned_only_on_forbidden_rest
        (rule_reps max_streak : nat) (indices : list nat) :
  Permutation (seq 0 (length (base rule_reps))) indices ->
  exists placed rest,
    place_loop rule_reps max_streak (length indices) [] indices = Ok placed
    /\ Permutation indices (placed ++ rest)
    /\ (rest = []
        \/ exists r,
             1 <= max_streak <= length placed
             /\ Forall (eq r)
                  (firstn max_streak (rev (labels rule_reps placed)))
             /\ Forall (eq r) (labels rule_reps rest)).
Proof.
  intros P.
  assert (Hr : in_range rule_reps ([] ++ indices)).
  { simpl. eapply ranged_perm; [exact P|apply ranged_seq]. }
  exact (place_loop_stuck rule_reps max_streak (length indices) [] indices
           (Nat.le_refl _) Hr).
Qed.

Lemma attempt_abandoned_only_on_forbidden_rest_witness :
  Permutation (seq 0 (length (base 5))) (seq 0 120)
  /\ exists placed rest,
       place_loop 5 3 (length (seq 0 120)) [] (seq 0 120) = Ok placed
       /\ Permutation (seq 0 120) (placed ++ rest)
       /\ (rest = []
           \/ exists r,
                1 <= 3 <= length placed
                /\ Forall (eq r) (firstn 3 (rev (labels 5 placed)))
                /\ Forall (eq r) (labels 5 rest)).
Proof.
  split; [reflexivity|].
  apply (attempt_abandoned_only_on_forbidden_rest 5 3 (seq 0 120)).
  reflexivity.
Defined.

(** ** Orders that need no repair *)

Lemma run_from_ge r n l : n <= run_from r n l.
Proof.
  revert r n; induction l as [|x l IH]; intros r n; simpl; [lia|].
  destruct (x =? r)%string.
  - specialize (IH r (S n)). lia.
  - apply Nat.le_max_l.
Qed.

Lemma run_from_prefix m :
  forall l r n,
    m <= length l -> Forall (eq r) (firstn m l) -> n + m <= run_from r n l.
Proof.
  induction m as [|m IH]; intros l r n Hm Hall.
  - rewrite Nat.add_0_r. apply run_from_ge.
  - destruct l as [|x l]; [simpl in Hm; lia|].
    simpl in Hall. inversion Hall as [|? ? Hx Hrest]; subst.
    simpl. rewrite String.eqb_refl.
    specialize (IH l x (S n)). simpl in Hm.
    assert (S n + m <= run_from x (S n) l) by (apply IH; [lia|exact Hrest]).
    lia.
Qed.

Lemma run_from_window K i :
  forall l r n,
    i + S K <= length l -> all_same (window l i (S K)) ->
    S K <= run_from r n l.
Proof.
  induction i as [|i IH]; intros l r n Hi [x Hall].
  - destruct l as [|y l]; [simpl in Hi; lia|].
    unfold window in Hall. rewrite skipn_0 in Hall.
    simpl in Hall. apply Forall_cons_iff in Hall.
    destruct Hall as [Hy Hrest]. subst y.
    simpl in Hi. simpl.
    destruct (String.eqb_spec x r) as [-> | _].
    + pose proof (run_from_prefix K l r (S n) ltac:(lia) Hrest). lia.
    + pose proof (run_from_prefix K l x 1 ltac:(lia) Hrest).
      apply Nat.max_le_iff. right. lia.
  - destruct l as [|y l]; [simpl in Hi; lia|].
    simpl in Hi.
    assert (Hw : all_same (window l i (S K))) by (exists x; exact Hall).
    simpl. destruct (y =? r)%string.
    + apply IH; [lia|exact Hw].
    + apply Nat.max_le_iff. right. apply IH; [lia|exact Hw].
Qed.

(** The bound can be checked by measuring the longest run. *)
Lemma longest_run_streak_bounded K l :
  longest_run l <= K -> streak_bounded K l.
Proof.
  intros H i Hi Hs.
  destruct l as [|x l]; [simpl in Hi; lia|].
  destruct i as [|i].
  - unfold longest_run in H.
    destruct Hs as [r Hall]. unfold window in Hall. rewrite skipn_0 in Hall.
    simpl in Hall. apply Forall_cons_iff in Hall.
    destruct Hall as [Hx Hrest]. subst r.
    simpl in Hi.
    pose proof (run_from_prefix K l x 1 ltac:(lia) Hrest). lia.
  - unfold longest_run in H. simpl in Hi.
    assert (Hw : all_same (window l i (S K))) by exact Hs.
    pose proof (run_from_window K i l x 1 ltac:(lia) Hw). lia.
Qed.

Lemma restart_loop_step {G : RandomGen} rule_reps max_streak n indices :
  restart_loop rule_reps max_streak (S n) indices
  = (indices' <- shuffle indices ;;
     placed <~ place_loop rule_reps max_streak (length indices') [] indices' ;;
     if length placed =? length (base rule_reps)
     then ret_rand (Some placed, indices')
     else restart_loop rule_reps max_streak n indices')%rand.
Proof. reflexivity. Qed.

(** The first attempt accepts a shuffled order that needs no repair. *)
Lemma construct_keeps_bounded_shuffle {G : RandomGen} (seed : Z)
        (order : list nat) (s1 : rng_state) :
  shuffle (seq 0 (length (base RULE_REPS))) (Random seed) = Ok (order, s1) ->
  streak_bounded MAX_STREAK (labels RULE_REPS order) ->
  construct RULE_REPS MAX_STREAK (Random seed) = Ok ((Some order, order), s1).
Proof.
  intros Es Hb. unfold construct.
  rewrite (restart_loop_step RULE_REPS MAX_STREAK 199).
  rewrite (bind_rand_ok _ _ _ _ _ Es).
  destruct (shuffle_spec (seq 0 (length (base RULE_REPS))) (Random seed))
    as (x' & s' & Es' & P).
  rewrite Es in Es'. injection Es' as <- <-.
  assert (Hr : in_range RULE_REPS ([] ++ order)).
  { simpl. eapply ranged_perm; [exact P|apply ranged_seq]. }
  rewrite (bind_rand_lift _ _ _ _
             (place_loop_follows RULE_REPS MAX_STREAK (length order) [] order
                (Nat.le_refl _) Hr Hb)).
  change ([] ++ order) with order.
  rewrite <- (Permutation_length P), length_seq, Nat.eqb_refl.
  reflexivity.
Qed.

(** X4 (an order within the bound is kept).  When the first shuffle of
    the indices already respects the streak bound, the first attempt
    places the items exactly in that order: [result] is the shuffled list
    itself and no further random number is drawn before the records are
    built. *)
Theorem bounded_shuffle_is_kept {G : RandomGen} (seed : Z)
        (order : list nat) (s1 : rng_state) :
  shuffle (seq 0 (length (base RULE_REPS))) (Random seed) = Ok (order, s1) ->
  streak_bounded MAX_STREAK (labels RULE_REPS order) ->
  construct RULE_REPS MAX_STREAK (Random seed) = Ok ((Some order, order), s1).
Proof.
  apply construct_keeps_bounded_shuffle.
Qed.

Lemma bounded_shuffle_is_kept_witness :
  @shuffle steady _ (seq 0 (length (base RULE_REPS))) (Random 7)
  = Ok (seq 0 120, tt)
  /\ streak_bounded MAX_STREAK (labels RULE_REPS (seq 0 120))
  /\ @construct steady RULE_REPS MAX_STREAK (Random 7)
     = Ok ((Some (seq 0 120), seq 0 120), tt).
Proof.
  assert (Es : @shuffle steady _ (seq 0 (length (base RULE_REPS))) (Random 7)
               = Ok (seq 0 120, tt)) by (vm_compute; reflexivity).
  assert (Hb : streak_bounded MAX_STREAK (labels RULE_REPS (seq 0 120)))
    by (apply longest_run_streak_bounded; vm_compute; lia).
  split; [exact Es|]. split; [exact Hb|].
  apply (@bounded_shuffle_is_kept steady 7 (seq 0 120) tt Es Hb).
Defined.

(** X5 (working-memory balance).  For every seed, every returned WM trial
    pairs a stimulus name with one of the two ISI conditions; each
    stimulus is the sample of 6 trials and each ISI condition is used in
    12. *)
Theorem wm_trials_balanced {G : RandomGen} (seed : Z) (w : World) :
  exists trials,
    gen_wm_trials seed w = Ok (trials, w)
    /\ Forall (fun t => In (WmTrial.sample_stim t) STIM_NAMES
                        /\ In (WmTrial.isi_condition t) WM_ISI_CONDITIONS)
         trials
    /\ Forall (fun s =>
                 count_occ string_dec (map WmTrial.sample_stim trials) s = 6)
         STIM_NAMES
    /\ Forall (fun q =>
                 count_occ Q_eq_dec (map WmTrial.isi_condition trials) q = 12)
         WM_ISI_CONDITIONS.
Proof.
  destruct (shuffle_spec (wm_cells WM_REPS) (Random seed))
    as (trials & s' & E & P).
  exists trials. split.
  { unfold gen_wm_trials. apply (with_Random_ok _ _ _ _ _ E). }
  split.
  { eapply Permutation_Forall; [exact P|].
    vm_compute. repeat (constructor; [split; tauto|]). constructor. }
  split.
  - unfold STIM_NAMES.
    repeat (constructor;
            [rewrite <- (count_occ_perm_map string_dec WmTrial.sample_stim
                           _ _ _ P); vm_compute; reflexivity|]).
    constructor.
  - unfold WM_ISI_CONDITIONS.
    repeat (constructor;
            [rewrite <- (count_occ_perm_map Q_eq_dec WmTrial.isi_condition
                           _ _ _ P); vm_compute; reflexivity|]).
    constructor.
Qed.

(** * The task runners *)

(** ** Slot mappings *)

Lemma STIM_NAMES_NoDup : NoDup STIM_NAMES.
Proof.
  unfold STIM_NAMES.
  repeat (constructor; [simpl; intuition discriminate|]). constructor.
Qed.

(** X6 (slot mapping).  In every interpreter state [make_slot_mapping]
    returns a rearrangement of the four stimulus names, each name in
    exactly one slot; it writes no log line and advances nothing but the
    module-level generator, by the draws of one shuffle. *)
Theorem make_slot_mapping_permutes {G : RandomGen} (w : World) :
  exists mapping w',
    make_slot_mapping w = Ok (mapping, w')
    /\ Permutation STIM_NAMES mapping
    /\ NoDup mapping
    /\ length mapping = 4
    /\ log_lines w' = log_lines w
    /\ shuffle STIM_NAMES (global_random w) = Ok (mapping, global_random w').
Proof.
  destruct (shuffle_spec STIM_NAMES (global_random w)) as (m & s' & E & P).
  exists m. eexists. unfold make_slot_mapping. rewrite E.
  split; [reflexivity|]. split; [exact P|]. split.
  { apply (Permutation_NoDup P STIM_NAMES_NoDup). }
  split; [rewrite <- (Permutation_length P); reflexivity|].
  split; reflexivity.
Qed.

(** ** Scoring a response *)

(** How a pressed key is scored, for the key at position [i] of
    [RESPONSE_KEYS]. *)
Lemma score_response_at
      (mapping : list string) (target : string) (i : nat) (key : string)
      (rt : Q) (more : list (string * Q)) :
  nth_error RESPONSE_KEYS i = Some key ->
  score_response mapping target (Some ((key, rt) :: more))
  = match nth_error mapping i with
    | Some stim =>
        Ok {| Response.response_key := Some key;
              Response.rt := Some rt;
              Response.response_slot := Some (Z.of_nat i + 1)%Z;
              Response.response_stim := Some stim;
              Response.correct :=
                if (stim =? target)%string then 1%Z else 0%Z |}
    | None => Raise IndexError
    end.
Proof.
  intros H.
  destruct i as [|[|[|[|i]]]]; simpl in H;
    try (injection H as <-; unfold score_response; simpl;
         unfold getitem_Z; simpl; unfold getitem; simpl;
         destruct mapping as [|m0 [|m1 [|m2 [|m3 rest]]]]; reflexivity).
  destruct i; discriminate.
Qed.

(** X7 (a key selects its own slot).  The key at position [i] of
    [RESPONSE_KEYS] is scored against the stimulus at position [i] of the
    slot mapping, the one [show_response] draws above that key's label;
    the slot number stored is [i + 1].  A mapping with no position [i]
    makes the lookup raise [IndexError]. *)
Theorem response_key_selects_its_slot
        (mapping : list string) (target : string) (i : nat) (key : string)
        (rt : Q) (more : list (string * Q)) :
  nth_error RESPONSE_KEYS i = Some key ->
  score_response mapping target (Some ((key, rt) :: more))
  = match nth_error mapping i with
    | Some stim =>
        Ok {| Response.response_key := Some key;
              Response.rt := Some rt;
              Response.response_slot := Some (Z.of_nat i + 1)%Z;
              Response.response_stim := Some stim;
              Response.correct :=
                if (stim =? target)%string then 1%Z else 0%Z |}
    | None => Raise IndexError
    end.
Proof.
  apply score_response_at.
Qed.

Lemma response_key_selects_its_slot_witness :
  nth_error RESPONSE_KEYS 1 = Some "2"
  /\ score_response ["star"; "circle"; "triangle"; "rectangle"] "circle"
       (Some [("2", 1 # 2)])
     = Ok {| Response.response_key := Some "2";
             Response.rt := Some (1 # 2);
             Response.response_slot := Some 2%Z;
             Response.response_stim := Some "circle";
             Response.correct := 1%Z |}.
Proof.
  split; [reflexivity|].
  apply (response_key_selects_its_slot
           ["star"; "circle"; "triangle"; "rectangle"] "circle" 1 "2"
           (1 # 2) []).
  reflexivity.
Defined.

Lemma scores_correct_at mapping target i key rt :
  nth_error RESPONSE_KEYS i = Some key ->
  scores_correct mapping target key rt
  = match nth_error mapping i with
    | Some stim => (stim =? target)%string
    | None => false
    end.
Proof.
  intros H. unfold scores_correct.
  rewrite (score_response_at mapping target i key rt [] H).
  destruct (nth_error mapping i) as [stim|]; [|reflexivity].
  simpl. destruct (stim =? target)%string; reflexivity.
Qed.

(** With every stimulus in exactly one slot, exactly one key is right. *)
Lemma one_correct_key_of_permutation mapping target :
  Permutation STIM_NAMES mapping -> In target STIM_NAMES ->
  one_correct_key mapping target.
Proof.
  intros P Ht.
  pose proof (Permutation_NoDup P STIM_NAMES_NoDup) as ND.
  pose proof (Permutation_in _ P Ht) as Hin.
  pose proof (Permutation_length P) as L.
  destruct mapping as [|m0 [|m1 [|m2 [|m3 [|? ?]]]]]; try discriminate L.
  clear P L Ht.
  inversion ND as [|? ? N0 ND1]; subst.
  inversion ND1 as [|? ? N1 ND2]; subst.
  inversion ND2 as [|? ? N2 _]; subst.
  simpl in N0, N1, N2.
  assert (Hkeys : forall k, In k RESPONSE_KEYS ->
            exists i, i < 4 /\ nth_error RESPONSE_KEYS i = Some k).
  { intros k Hk. unfold RESPONSE_KEYS in Hk. simpl in Hk.
    destruct Hk as [<- | [<- | [<- | [<- | []]]]];
      [exists 0|exists 1|exists 2|exists 3]; split; (lia || reflexivity). }
  destruct Hin as [<- | [<- | [<- | [<- | []]]]];
    [exists "1"|exists "2"|exists "3"|exists "4"];
    (split; [unfold RESPONSE_KEYS; simpl; tauto|]);
    intros k rt Hk; destruct (Hkeys k Hk) as (i & Hi & Hn);
    rewrite (scores_correct_at _ _ i k rt Hn);
    destruct i as [|[|[|[|i]]]]; try lia;
    simpl in Hn; injection Hn as <-; simpl;
    rewrite ?String.eqb_refl;
    (split; [intros E; try reflexivity;
             apply String.eqb_eq in E; subst; exfalso; tauto
            |intros E; try reflexivity; discriminate E]).
Qed.

(** X8 (one right answer per main trial).  For every seed and every
    returned main-task trial, whatever slot mapping [make_slot_mapping]
    produces, exactly one of the four response keys is scored as correct
    against the trial's [correct_next_stim]. *)
Theorem main_trial_has_one_correct_key {G : RandomGen}
        (seed : Z) (w w' : World) :
  exists trials mapping w'',
    gen_main_trials seed w = Ok (trials, w)
    /\ make_slot_mapping w' = Ok (mapping, w'')
    /\ Forall (fun t => one_correct_key mapping (Trial.correct_next_stim t))
         trials.
Proof.
  destruct (main_output_spec seed w) as (order & trials & E & _ & F & _).
  destruct (shuffle_spec STIM_NAMES (global_random w')) as (m & s' & Es & P).
  exists trials, m. eexists. split; [exact E|]. split.
  { unfold make_slot_mapping. rewrite Es. reflexivity. }
  clear E. induction F as [|idx t l ts B _ IH]; constructor; [|exact IH].
  destruct B as (cfg & _ & _ & _ & _ & _ & Ha' & Hb' & _ & _ & C).
  apply (one_correct_key_of_permutation m _ P).
  rewrite C. destruct (Cfg.rule_type cfg =? "ABA")%string; assumption.
Qed.

(** X9 (one right answer per WM trial).  For every seed and every
    returned WM trial, whatever slot mapping [make_slot_mapping] produces,
    exactly one of the four response keys is scored as correct against the
    trial's [sample_stim]. *)
Theorem wm_trial_has_one_correct_key {G : RandomGen}
        (seed : Z) (w w' : World) :
  exists trials mapping w'',
    gen_wm_trials seed w = Ok (trials, w)
    /\ make_slot_mapping w' = Ok (mapping, w'')
    /\ Forall (fun t => one_correct_key mapping (WmTrial.sample_stim t))
         trials.
Proof.
  destruct (shuffle_spec (wm_cells WM_REPS) (Random seed))
    as (trials & s0 & E & Pt).
  destruct (shuffle_spec STIM_NAMES (global_random w')) as (m & s' & Es & P).
  exists trials, m. eexists. split.
  { unfold gen_wm_trials. apply (with_Random_ok _ _ _ _ _ E). }
  split.
  { unfold make_slot_mapping. rewrite Es. reflexivity. }
  eapply Permutation_Forall; [exact Pt|].
  apply Forall_forall. intros t Ht.
  apply (one_correct_key_of_permutation m _ P).
  vm_compute in Ht.
  repeat (destruct Ht as [<- | Ht]; [simpl; tauto|]). contradiction.
Qed.

(** ** Runs of the main task *)

Lemma firstn_plus {A} (l : list A) a b :
  firstn (a + b) l = firstn a l ++ firstn b (skipn a l).
Proof.
  revert l; induction a as [|a IH]; intros l; [reflexivity|].
  destruct l as [|x l]; simpl.
  - rewrite firstn_nil. reflexivity.
  - rewrite IH. reflexivity.
Qed.

Lemma concat_slices {A} (l : list A) n k :
  concat (map (fun r => slice l (r * n) ((r + 1) * n)) (seq 0 k))
  = firstn (k * n) l.
Proof.
  induction k as [|k IH]; [reflexivity|].
  rewrite seq_S, map_app, concat_app, IH. simpl.
  rewrite app_nil_r. unfold slice.
  replace ((k + 1) * n - k * n) with n by lia.
  replace (n + k * n) with (k * n + n) by lia.
  rewrite firstn_plus. reflexivity.
Qed.

Lemma nth_error_slice {A} (l : list A) a b i :
  i < b - a -> nth_error (slice l a b) i = nth_error l (a + i).
Proof.
  intros H. unfold slice.
  rewrite nth_error_firstn.
  destruct (Nat.ltb_spec i (b - a)); [|lia].
  apply nth_error_skipn.
Qed.

(** X10 (the runs cover the first 120 trials).  Whatever list the runner
    is given, its [N_RUNS] slices, one after the other, are the first
    [N_RUNS * TRIALS_PER_RUN = 120] items of the list in order: a longer
    list loses its tail, a shorter one gives short or empty last runs, and
    no slice raises. *)
Theorem runs_cover_first_trials {A} (trials : list A) :
  concat (map (run_trials trials) (seq 0 N_RUNS))
  = firstn (N_RUNS * TRIALS_PER_RUN) trials.
Proof.
  unfold run_trials. apply concat_slices.
Qed.

(** X11 (the runs partition the generated trials).  For every seed the
    four runs of [run_main_task] have 30 trials each, together they are
    exactly the list [gen_main_trials] returned, and the trial numbered
    [t_idx] in a run is the one at index [t_idx] of that list. *)
Theorem runs_partition_generated_trials {G : RandomGen} (seed : Z) (w : World) :
  exists trials,
    gen_main_trials seed w = Ok (trials, w)
    /\ concat (map (run_trials trials) (seq 0 N_RUNS)) = trials
    /\ Forall (fun run_idx =>
                 length (run_trials trials run_idx) = TRIALS_PER_RUN
                 /\ Forall (fun t_rel =>
                              nth_error (run_trials trials run_idx) t_rel
                              = nth_error trials (t_idx run_idx t_rel))
                      (seq 0 TRIALS_PER_RUN))
         (seq 0 N_RUNS).
Proof.
  destruct (main_output_spec seed w) as (order & trials & E & Po & F & _).
  assert (L : length trials = 120).
  { rewrite <- (Forall2_length F), <- (Permutation_length Po), length_seq.
    reflexivity. }
  exists trials. split; [exact E|]. split.
  { unfold run_trials. rewrite concat_slices. apply firstn_all2.
    rewrite L. reflexivity. }
  apply Forall_forall. intros r Hr. apply in_seq in Hr. split.
  - unfold run_trials, slice.
    rewrite length_firstn, length_skipn, L.
    unfold N_RUNS, TRIALS_PER_RUN in *. lia.
  - apply Forall_forall. intros t Ht. apply in_seq in Ht.
    unfold run_trials, t_idx. apply nth_error_slice. lia.
Qed.

(** ** What the main task displays *)

Lemma load_stimuli_has name :
  In name STIM_NAMES -> dict_get load_stimuli name <> None.
Proof.
  unfold STIM_NAMES. simpl In.
  intros [<- | [<- | [<- | [<- | []]]]]; vm_compute; discriminate.
Qed.

(** X12 (every lookup of a trial succeeds).  For every seed and every
    returned trial, splitting [rule_sequence] and [test_sequence] at the
    commas gives the three and two names the runner indexes, so no index
    is out of range; the names shown are A, B, then A or B by the rule,
    then A', B', and each is a key of the dictionary [load_stimuli]
    builds. *)
Theorem shown_stimuli_are_loaded {G : RandomGen} (seed : Z) (w : World) :
  exists trials,
    gen_main_trials seed w = Ok (trials, w)
    /\ Forall (fun t =>
                 shown_stimuli t
                 = Ok [Trial.A_stim t; Trial.B_stim t;
                       (if (Trial.rule_type t =? "ABA")%string
                        then Trial.A_stim t else Trial.B_stim t);
                       Trial.A_prime t; Trial.B_prime t]
                 /\ Forall (fun name => dict_get load_stimuli name <> None)
                      [Trial.A_stim t; Trial.B_stim t;
                       Trial.A_prime t; Trial.B_prime t]) trials.
Proof.
  destruct (main_output_spec seed w) as (order & trials & E & _ & F & _).
  exists trials. split; [exact E|].
  clear E. induction F as [|idx t l ts B _ IH]; constructor; [|exact IH].
  destruct B as (cfg & N & R & A & B & _ & Ha' & Hb' & RS & TS & _).
  apply nth_error_In, repeat_list_In, configs_facts in N.
  destruct N as (HA & HB & _ & HR).
  rewrite <- A, <- B, <- R in *.
  split.
  - unfold shown_stimuli. rewrite RS, TS.
    change (Trial.A_prime t ++ "," ++ Trial.B_prime t)%string
      with (join "," [Trial.A_prime t; Trial.B_prime t]).
    rewrite (split_join2 _ _ Ha' Hb').
    destruct HR as [HR | HR]; rewrite HR; simpl String.eqb; cbv iota;
      rewrite split_join3 by assumption; reflexivity.
  - repeat (constructor; [apply load_stimuli_has; assumption|]).
    constructor.
Qed.

(** ** Rows of the data file *)

(** X13 (WM rows fit the header).  Whatever a WM trial, its response and
    its clock readings are, the row has exactly the columns of
    [FIELDNAMES] in header order, so [DictWriter.writerow] does not reject
    it and writes 34 cells; the columns only the main task fills hold the
    empty string. *)
Theorem wm_row_fits_header
        (sid : string) (t : nat) (trial : WmTrial.t) (slot_mapping : list string)
        (r : Response.t) (t_fixation t_sample t_delay t_response : Q) :
  let row := wm_row sid t trial slot_mapping r
               t_fixation t_sample t_delay t_response in
  map fst row = FIELDNAMES
  /\ (exists cells,
        writerow_cells FIELDNAMES row = Ok cells
        /\ cells = map snd row /\ length cells = 34)
  /\ Forall (fun k => dict_get row k = Some (VStr "")) main_only_fields.
Proof.
  cbv zeta. split; [reflexivity|]. split.
  - eexists. split; [reflexivity|]. split; reflexivity.
  - unfold main_only_fields.
    repeat (constructor; [reflexivity|]). constructor.
Qed.

(** X14 (main rows fit the header).  Whatever a main-task trial, its
    response, its durations and its clock readings are, the row has
    exactly the columns of [FIELDNAMES] in header order, so
    [DictWriter.writerow] does not reject it and writes 34 cells; the
    columns only the WM task fills hold the empty string. *)
Theorem main_row_fits_header
        (sid : string) (run_idx t : nat) (trial : Trial.t)
        (slot_mapping : list string) (r : Response.t) (tm : Timing.t) :
  let row := main_row sid run_idx t trial slot_mapping r tm in
  map fst row = FIELDNAMES
  /\ (exists cells,
        writerow_cells FIELDNAMES row = Ok cells
        /\ cells = map snd row /\ length cells = 34)
  /\ Forall (fun k => dict_get row k = Some (VStr "")) wm_only_fields.
Proof.
  cbv zeta. split; [reflexivity|]. split.
  - eexists. split; [reflexivity|]. split; reflexivity.
  - unfold wm_only_fields.
    repeat (constructor; [reflexivity|]). constructor.
Qed.

(** ** The response screen *)

Lemma slot_positions_four (stimuli : dict string) m0 m1 m2 m3 :
  dict_get stimuli m0 <> None -> dict_get stimuli m1 <> None ->
  dict_get stimuli m2 <> None -> dict_get stimuli m3 <> None ->
  slot_positions stimuli (enumerate_from 0 [m0; m1; m2; m3])
  = Found (combine [m0; m1; m2; m3] SLOT_X).
Proof.
  intros H0 H1 H2 H3. cbn [enumerate_from length seq combine slot_positions].
  cbn [SLOT_X nth_error].
  destruct (dict_get stimuli m0); [|congruence].
  destruct (dict_get stimuli m1); [|congruence].
  destruct (dict_get stimuli m2); [|congruence].
  destruct (dict_get stimuli m3); [|congruence].
  reflexivity.
Qed.

(** X15 (keys, labels and stimuli line up).  For every slot mapping
    [make_slot_mapping] produces, [show_response] finds a slot position
    and a loaded image for each of the four stimuli, drawing the mapping
    left to right over [SLOT_X]; the label of each response key sits at
    the horizontal position of exactly the stimulus that key is scored
    as having chosen. *)
Theorem response_layout_agrees {G : RandomGen} (w : World) :
  exists mapping w' drawn labels,
    make_slot_mapping w = Ok (mapping, w')
    /\ slot_positions load_stimuli (enumerate_from 0 mapping) = Found drawn
    /\ key_labels = Ok labels
    /\ map fst drawn = mapping
    /\ map snd drawn = SLOT_X
    /\ Forall2 (fun kl d =>
                  snd kl = snd d
                  /\ forall target rt,
                       exists r,
                         score_response mapping target (Some [(fst kl, rt)])
                         = Ok r
                         /\ Response.response_stim r = Some (fst d))
         labels drawn.
Proof.
  destruct (shuffle_spec STIM_NAMES (global_random w)) as (m & s' & Es & P).
  pose proof (Permutation_length P) as L.
  assert (Hin : forall x, In x m -> dict_get load_stimuli x <> None).
  { intros x Hx. apply load_stimuli_has.
    apply (Permutation_in _ (Permutation_sym P) Hx). }
  destruct m as [|m0 [|m1 [|m2 [|m3 [|? ?]]]]]; try discriminate L.
  exists [m0; m1; m2; m3]. eexists.
  exists (combine [m0; m1; m2; m3] SLOT_X).
  exists (combine RESPONSE_KEYS SLOT_X).
  split; [unfold make_slot_mapping; rewrite Es; reflexivity|].
  split.
  { apply slot_positions_four; apply Hin; simpl; tauto. }
  split; [reflexivity|]. split; [reflexivity|]. split; [reflexivity|].
  unfold RESPONSE_KEYS, SLOT_X. cbn [combine].
  repeat (constructor;
          [split; [reflexivity|]; intros target rt; cbn [fst snd];
           eexists; split;
           [first [rewrite (score_response_at _ target 0 "1" rt [] eq_refl)
                  |rewrite (score_response_at _ target 1 "2" rt [] eq_refl)
                  |rewrite (score_response_at _ target 2 "3" rt [] eq_refl)
                  |rewrite (score_response_at _ target 3 "4" rt [] eq_refl)];
            reflexivity
           |reflexivity]|]).
  constructor.
Qed.

(** * Orders the generators can return *)

Section Reach.
Context {A : Type}.
Implicit Types (l pre suf : list A).

Lemma nth_error_middle l1 (a : A) l2 :
  nth_error (l1 ++ a :: l2) (length l1) = Some a.
Proof.
  rewrite nth_error_app2 by lia. rewrite Nat.sub_diag. reflexivity.
Qed.

Lemma setitem_middle l1 (a : A) l2 v :
  setitem (l1 ++ a :: l2) (length l1) v = l1 ++ v :: l2.
Proof.
  induction l1 as [|h t IH]; simpl; [reflexivity|]. rewrite IH. reflexivity.
Qed.

Lemma swap_same l1 (a : A) l2 :
  swap (l1 ++ a :: l2) (length l1) (length l1) = Ok (l1 ++ a :: l2).
Proof.
  unfold swap, getitem. rewrite nth_error_middle. simpl.
  rewrite setitem_middle, setitem_middle. reflexivity.
Qed.

Lemma swap_far l1 (a : A) l2 b l3 :
  swap (l1 ++ a :: l2 ++ b :: l3) (length l1 + S (length l2)) (length l1)
  = Ok (l1 ++ b :: l2 ++ a :: l3).
Proof.
  unfold swap, getitem. rewrite nth_error_middle. simpl.
  assert (E : l1 ++ a :: l2 ++ b :: l3 = (l1 ++ a :: l2) ++ b :: l3)
    by (rewrite <- app_assoc; reflexivity).
  assert (L : length l1 + S (length l2) = length (l1 ++ a :: l2))
    by (rewrite length_app; reflexivity).
  rewrite E, L, nth_error_middle. simpl.
  rewrite setitem_middle, <- app_assoc. simpl.
  rewrite setitem_middle. reflexivity.
Qed.

(** Any rearrangement of the part still to be shuffled is produced by
    some answers of the stream. *)
Lemma shuffle_from_reach i :
  forall pre tpre suf,
    length pre = S i -> Permutation pre tpre ->
    exists script,
      shuffle_answers i script = true
      /\ forall sc0 rest,
           @shuffle_from (replay sc0) A i (pre ++ suf) (script ++ rest)
           = Ok (tpre ++ suf, rest).
Proof.
  induction i as [|i IH]; intros pre tpre suf Hlen P.
  - destruct pre as [|a [|? ?]]; try discriminate Hlen.
    apply Permutation_length_1_inv in P. subst tpre.
    exists []. split; [reflexivity|]. intros sc0 rest. reflexivity.
  - assert (Ht : tpre <> []).
    { intros ->. apply Permutation_length in P. simpl in P. lia. }
    destruct (exists_last Ht) as (tpre' & e & ->).
    assert (He : In e pre).
    { apply (Permutation_in _ (Permutation_sym P)).
      apply in_or_app. right. left. reflexivity. }
    destruct (in_split _ _ He) as (p1 & p2 & ->).
    assert (Hj : length p1 <= S i).
    { rewrite length_app in Hlen. simpl in Hlen. lia. }
    assert (Hdraw : forall sc0 (rest' : list nat),
              @randbelow (replay sc0) (S i + 1) (length p1 :: rest')
              = (length p1, rest')).
    { intros sc0 rest'. cbn [randbelow replay hd tl].
      rewrite Nat.min_r by lia. reflexivity. }
    destruct p2 as [|y p2] using rev_ind.
    + (* the wanted element is already last *)
      assert (Pp : Permutation p1 tpre').
      { apply Permutation_app_inv_r with (l := [e]). exact P. }
      destruct (IH p1 tpre' (e :: suf)) as (script & Ha & Hs).
      { rewrite length_app in Hlen. simpl in Hlen. lia. }
      { exact Pp. }
      exists (length p1 :: script). split.
      { cbn [shuffle_answers]. rewrite Ha, andb_true_r.
        apply Nat.leb_le. exact Hj. }
      intros sc0 rest.
      cbn [shuffle_from app]. rewrite bind_rand_draw, Hdraw. cbn [fst snd].
      assert (Ei : S i = length p1)
        by (rewrite length_app in Hlen; simpl in Hlen; lia).
      rewrite Ei at 1. rewrite <- app_assoc. cbn [app].
      rewrite (bind_rand_lift _ _ _ _ (swap_same p1 e suf)).
      rewrite (Hs sc0 rest). rewrite <- app_assoc. reflexivity.
    + (* swap it with the last element *)
      clear IHp2.
      assert (Pp : Permutation (p1 ++ y :: p2) tpre').
      { apply Permutation_app_inv_r with (l := [e]).
        etransitivity; [|exact P].
        rewrite <- !app_assoc. cbn [app].
        apply Permutation_app_head.
        rewrite (Permutation_app_comm p2 [e]). cbn [app].
        rewrite perm_swap. constructor.
        apply Permutation_cons_append. }
      destruct (IH (p1 ++ y :: p2) tpre' (e :: suf)) as (script & Ha & Hs).
      { rewrite !length_app in Hlen. simpl in Hlen.
        rewrite length_app in Hlen. simpl in Hlen.
        rewrite length_app. simpl. lia. }
      { exact Pp. }
      exists (length p1 :: script). split.
      { cbn [shuffle_answers]. rewrite Ha, andb_true_r.
        apply Nat.leb_le. exact Hj. }
      intros sc0 rest.
      cbn [shuffle_from app]. rewrite bind_rand_draw, Hdraw. cbn [fst snd].
      assert (Ei : S i = length p1 + S (length p2)).
      { rewrite !length_app in Hlen. simpl in Hlen.
        rewrite length_app in Hlen. simpl in Hlen. lia. }
      rewrite Ei at 1.
      assert (Ex : (p1 ++ e :: p2 ++ [y]) ++ suf
                   = p1 ++ e :: p2 ++ y :: suf).
      { rewrite <- !app_assoc. cbn [app]. rewrite <- app_assoc. reflexivity. }
      rewrite Ex.
      rewrite (bind_rand_lift _ _ _ _ (swap_far p1 e p2 y suf)).
      assert (Ex' : p1 ++ y :: p2 ++ e :: suf = (p1 ++ y :: p2) ++ e :: suf)
        by (rewrite <- app_assoc; reflexivity).
      rewrite Ex', (Hs sc0 rest). rewrite <- app_assoc. reflexivity.
Qed.

Lemma shuffle_reach (x target : list A) :
  Permutation x target ->
  exists script,
    shuffle_answers (length x - 1) script = true
    /\ forall sc0 rest,
         @shuffle (replay sc0) A x (script ++ rest) = Ok (target, rest).
Proof.
  intros P. destruct x as [|a x].
  - apply Permutation_nil in P. subst target.
    exists []. split; [reflexivity|]. intros sc0 rest. reflexivity.
  - destruct (shuffle_from_reach (length x) (a :: x) target [] eq_refl P)
      as (script & Ha & Hs).
    exists script. split.
    { replace (length (a :: x) - 1) with (length x) by (simpl; lia).
      exact Ha. }
    intros sc0 rest. unfold shuffle.
    replace (length (a :: x) - 1) with (length x) by (simpl; lia).
    specialize (Hs sc0 rest). rewrite !app_nil_r in Hs. exact Hs.
Qed.

End Reach.

(** X16 (no order of the WM trials is excluded).  Every rearrangement of
    the 24 cells is what [gen_wm_trials] returns for some answers of the
    random stream: the generator itself filters nothing. *)
Theorem wm_order_reachable (target : list WmTrial.t) :
  Permutation (wm_cells WM_REPS) target ->
  exists script,
    forall seed w, @gen_wm_trials (replay script) seed w = Ok (target, w).
Proof.
  intros P. destruct (shuffle_reach _ _ P) as (script & _ & Hs).
  exists script. intros seed w. unfold gen_wm_trials.
  specialize (Hs script []). rewrite app_nil_r in Hs.
  apply (with_Random_ok (G := replay script) seed _ _ _ w Hs).
Qed.

Lemma wm_order_reachable_witness :
  Permutation (wm_cells WM_REPS) (rev (wm_cells WM_REPS))
  /\ exists script,
       forall seed w,
         @gen_wm_trials (replay script) seed w
         = Ok (rev (wm_cells WM_REPS), w).
Proof.
  split; [apply Permutation_rev|].
  apply (wm_order_reachable (rev (wm_cells WM_REPS))).
  apply Permutation_rev.
Defined.

(** X17 (no admissible order of the main trials is excluded).  Every
    order of the 120 base items that respects the streak bound is the
    order of the trials [gen_main_trials] returns for some answers of the
    random stream. *)
Theorem bounded_order_reachable (order : list nat) :
  Permutation (seq 0 (length (base RULE_REPS))) order ->
  streak_bounded MAX_STREAK (labels RULE_REPS order) ->
  exists script trials,
    (forall seed w, @gen_main_trials (replay script) seed w = Ok (trials, w))
    /\ Forall2 (built_from RULE_REPS) order trials.
Proof.
  intros P Hb. destruct (shuffle_reach _ _ P) as (script & _ & Hs).
  specialize (Hs script []). rewrite app_nil_r in Hs.
  assert (Hr : in_range RULE_REPS order).
  { eapply ranged_perm; [exact P|apply ranged_seq]. }
  destruct (map_make_trial_spec (G := replay script) RULE_REPS order Hr [])
    as (ts & s2 & Em & F).
  exists script, ts. split; [|exact F].
  intros seed w. unfold gen_main_trials, gen_main_trials_with.
  apply (with_Random_ok (G := replay script) seed _ ts s2 w).
  unfold main_trials.
  rewrite (bind_rand_ok _ _ _ _ _
             (construct_keeps_bounded_shuffle (G := replay script)
                seed order [] Hs Hb)).
  exact Em.
Qed.

Lemma bounded_order_reachable_witness :
  Permutation (seq 0 (length (base RULE_REPS))) (seq 0 120)
  /\ streak_bounded MAX_STREAK (labels RULE_REPS (seq 0 120))
  /\ exists script trials,
       (forall seed w,
          @gen_main_trials (replay script) seed w = Ok (trials, w))
       /\ Forall2 (built_from RULE_REPS) (seq 0 120) trials.
Proof.
  assert (Hb : streak_bounded MAX_STREAK (labels RULE_REPS (seq 0 120)))
    by (apply longest_run_streak_bounded; vm_compute; lia).
  split; [reflexivity|]. split; [exact Hb|].
  apply (bounded_order_reachable (seq 0 120)); [reflexivity|exact Hb].
Defined.

(** X18 (what the WM task displays).  For every seed and every returned
    WM trial, the sample stimulus is a key of the dictionary
    [load_stimuli] builds, and the delay shown after it, the trial's ISI
    condition, is a positive duration. *)
Theorem wm_trials_displayable {G : RandomGen} (seed : Z) (w : World) :
  exists trials,
    gen_wm_trials seed w = Ok (trials, w)
    /\ Forall (fun t =>
                 dict_get load_stimuli (WmTrial.sample_stim t) <> None
                 /\ (0 < WmTrial.isi_condition t)%Q) trials.
Proof.
  destruct (shuffle_spec (wm_cells WM_REPS) (Random seed))
    as (trials & s' & E & P).
  exists trials. split.
  { unfold gen_wm_trials. apply (with_Random_ok _ _ _ _ _ E). }
  eapply Permutation_Forall; [exact P|].
  vm_compute.
  repeat (constructor; [split; [discriminate|reflexivity]|]). constructor.
Qed.

(** * Settings of the constants that no order can satisfy *)

Lemma streak_bounded_0 (l : list string) : streak_bounded 0 l -> l = [].
Proof.
  intros Hb. destruct l as [|x l]; [reflexivity|]. exfalso.
  apply (Hb 0); [simpl; lia|].
  exists x. unfold window. simpl. repeat constructor.
Qed.

Lemma alternating_tail x l : alternating (x :: l) -> alternating l.
Proof. destruct l as [|y l]; [trivial|]. intros [_ H]. exact H. Qed.

Lemma alternating_skipn i : forall l, alternating l -> alternating (skipn i l).
Proof.
  induction i as [|i IH]; intros l H; [exact H|].
  destruct l as [|x l]; [exact I|].
  cbn [skipn]. apply IH. exact (alternating_tail _ _ H).
Qed.

(** A list whose neighbours differ has no two equal labels in a row. *)
Lemma alternating_streak_bounded K l :
  1 <= K -> alternating l -> streak_bounded K l.
Proof.
  intros HK Ha i Hi [r F]. unfold window in F.
  pose proof (alternating_skipn i l Ha) as Hs.
  pose proof (length_skipn i l) as L.
  destruct (skipn i l) as [|x [|y rest]]; simpl in L; try lia.
  destruct K as [|K]; [lia|].
  cbn [firstn] in F.
  apply Forall_cons_iff in F. destruct F as [Ex F].
  apply Forall_cons_iff in F. destruct F as [Ey _].
  destruct Hs as [Hxy _]. congruence.
Qed.

Lemma map_nth_error_seq {A B} (f : A -> B) (d : B) (l : list A) :
  map (fun i => match nth_error l i with Some a => f a | None => d end)
    (seq 0 (length l))
  = map f l.
Proof.
  induction l as [|a l IH]; [reflexivity|].
  cbn [length seq map nth_error]. f_equal.
  rewrite <- seq_shift, map_map. exact IH.
Qed.

(** In the order [base] has, the two rules take turns. *)
Lemma labels_base rule_reps :
  labels rule_reps (seq 0 (length (base rule_reps)))
  = repeat_list (map Cfg.rule_type configs) rule_reps.
Proof.
  unfold labels, label. rewrite (map_nth_error_seq Cfg.rule_type "").
  unfold base. apply map_repeat_list.
Qed.

Lemma alternating_base_labels n :
  alternating (repeat_list (map Cfg.rule_type configs) n)
  /\ hd "ABA" (repeat_list (map Cfg.rule_type configs) n) = "ABA".
Proof.
  induction n as [|n [IHa IHh]]; [split; [exact I|reflexivity]|].
  cbn [repeat_list].
  remember (repeat_list (map Cfg.rule_type configs) n) as rest eqn:E.
  clear E. cbn. split; [|reflexivity].
  repeat (split; [discriminate|]).
  destruct rest as [|y rest]; [exact I|].
  cbn in IHh. subst y. split; [discriminate|exact IHa].
Qed.

Lemma base_order_bounded rule_reps K :
  1 <= K ->
  streak_bounded K (labels rule_reps (seq 0 (length (base rule_reps)))).
Proof.
  intros HK. rewrite labels_base.
  apply alternating_streak_bounded; [exact HK|apply alternating_base_labels].
Qed.

(** With [MAX_STREAK = 0] the set [tail] is empty, so nothing is ever
    forbidden and the loop places the pool in the order it has. *)
Lemma forbidden_rule_0 rule_reps placed :
  forbidden_rule rule_reps 0 placed = Ok None.
Proof. reflexivity. Qed.

Lemma place_loop_0 rule_reps fuel :
  forall placed pool,
    length pool <= fuel ->
    place_loop rule_reps 0 fuel placed pool = Ok (placed ++ pool).
Proof.
  induction fuel as [|fuel IH]; intros placed pool Hfuel.
  - destruct pool; [|simpl in Hfuel; lia].
    simpl. rewrite app_nil_r. reflexivity.
  - destruct pool as [|idx rest].
    { simpl. rewrite app_nil_r. reflexivity. }
    cbn [place_loop]. rewrite forbidden_rule_0. cbn [bind_res].
    rewrite enumerate_from_cons. cbn [find_first bind_res].
    change (Z.of_nat 0 =? -1)%Z with false. cbv iota.
    rewrite (pop_nat (idx :: rest) 0 idx eq_refl). cbn [bind_res remove_at].
    rewrite IH by (simpl in Hfuel; lia).
    rewrite <- app_assoc. reflexivity.
Qed.

Lemma construct_0 {G : RandomGen} rule_reps (seed : Z)
      (first : list nat) (s1 : rng_state) :
  shuffle (seq 0 (length (base rule_reps))) (Random seed) = Ok (first, s1) ->
  construct rule_reps 0 (Random seed) = Ok ((Some first, first), s1).
Proof.
  intros Es. unfold construct.
  rewrite (restart_loop_step rule_reps 0 199).
  rewrite (bind_rand_ok _ _ _ _ _ Es).
  destruct (shuffle_spec (seq 0 (length (base rule_reps))) (Random seed))
    as (x' & s' & Es' & P).
  rewrite Es in Es'. injection Es' as <- <-.
  rewrite (bind_rand_lift _ _ _ _
             (place_loop_0 rule_reps (length first) [] first (Nat.le_refl _))).
  change ([] ++ first) with first.
  rewrite <- (Permutation_length P), length_seq, Nat.eqb_refl.
  reflexivity.
Qed.

(** C6, amended.  [gen_main_trials] checks neither constant and raises no
    configuration error.  For non-negative values of [RULE_REPS] and
    [MAX_STREAK] under which no order of the base items respects the streak
    bound (which forces [MAX_STREAK = 0] and [RULE_REPS >= 1]), the call is
    not rejected and does not run to restart exhaustion either: the first
    shuffle is accepted as [result] as it is, and the call returns
    [24 * RULE_REPS] trial records, in that order, which violates the
    bound. *)
Theorem unsatisfiable_parameters_accepted {G : RandomGen}
        (rule_reps max_streak : nat) (seed : Z) (w : World) :
  (forall order,
     Permutation (seq 0 (length (base rule_reps))) order ->
     ~ streak_bounded max_streak (labels rule_reps order)) ->
  max_streak = 0
  /\ 1 <= rule_reps
  /\ exists first s1 trials,
       shuffle (seq 0 (length (base rule_reps))) (Random seed)
       = Ok (first, s1)
       /\ construct rule_reps max_streak (Random seed)
          = Ok ((Some first, first), s1)
       /\ gen_main_trials_with rule_reps max_streak seed w = Ok (trials, w)
       /\ length trials = 24 * rule_reps
       /\ map Trial.rule_type trials = labels rule_reps first
       /\ ~ streak_bounded max_streak (map Trial.rule_type trials).
Proof.
  intros Hun.
  assert (HK : max_streak = 0).
  { destruct max_streak as [|K]; [reflexivity|]. exfalso.
    apply (Hun _ (Permutation_refl _)).
    apply base_order_bounded. lia. }
  assert (HR : 1 <= rule_reps).
  { destruct rule_reps as [|R]; [exfalso|lia].
    apply (Hun _ (Permutation_refl _)). apply streak_bounded_nil. }
  split; [exact HK|]. split; [exact HR|]. subst max_streak.
  destruct (shuffle_spec (seq 0 (length (base rule_reps))) (Random seed))
    as (first & s1 & Es & P).
  pose proof (construct_0 rule_reps seed first s1 Es) as Ec.
  assert (Hr : in_range rule_reps first).
  { eapply ranged_perm; [exact P|apply ranged_seq]. }
  destruct (map_make_trial_spec rule_reps first Hr s1) as (ts & s2 & Em & F).
  exists first, s1, ts.
  split; [exact Es|]. split; [exact Ec|]. split.
  { unfold gen_main_trials_with.
    apply (with_Random_ok seed _ ts s2 w).
    unfold main_trials. rewrite (bind_rand_ok _ _ _ _ _ Ec). exact Em. }
  split.
  { rewrite <- (Forall2_length F), <- (Permutation_length P), length_seq.
    apply base_length. }
  split; [apply (built_from_labels _ _ _ F)|].
  rewrite (built_from_labels _ _ _ F). apply (Hun _ P).
Qed.

Lemma unsatisfiable_parameters_accepted_witness :
  (forall order,
     Permutation (seq 0 (length (base RULE_REPS))) order ->
     ~ streak_bounded 0 (labels RULE_REPS order))
  /\ 0 = 0
  /\ 1 <= RULE_REPS
  /\ exists first s1 trials,
       @shuffle lcg _ (seq 0 (length (base RULE_REPS))) (Random 42)
       = Ok (first, s1)
       /\ @construct lcg RULE_REPS 0 (Random 42)
          = Ok ((Some first, first), s1)
       /\ @gen_main_trials_with lcg RULE_REPS 0 42 world0
          = Ok (trials, world0)
       /\ length trials = 24 * RULE_REPS
       /\ map Trial.rule_type trials = labels RULE_REPS first
       /\ ~ streak_bounded 0 (map Trial.rule_type trials).
Proof.
  assert (Hun : forall order,
             Permutation (seq 0 (length (base RULE_REPS))) order ->
             ~ streak_bounded 0 (labels RULE_REPS order)).
  { intros order P Hb. apply streak_bounded_0 in Hb.
    apply Permutation_length in P.
    unfold labels in Hb. apply (f_equal (@length _)) in Hb.
    rewrite length_map, <- P, length_seq, base_length in Hb.
    discriminate Hb. }
  split; [exact Hun|].
  apply (@unsatisfiable_parameters_accepted lcg RULE_REPS 0 42 world0 Hun).
Defined.

(** * The shuffle as a function of the stream's answers *)

Section Positions.
Context {A : Type}.
Implicit Types (x y : list A).

Lemma nth_error_setitem_eq x i v :
  i < length x -> nth_error (setitem x i v) i = Some v.
Proof.
  revert i; induction x as [|h t IH]; intros [|i]; simpl; intros H;
    try lia; [reflexivity|].
  apply IH. lia.
Qed.

Lemma nth_error_setitem_neq x i k v :
  k <> i -> nth_error (setitem x i v) k = nth_error x k.
Proof.
  revert i k; induction x as [|h t IH]; intros [|i] [|k]; simpl; intros H;
    try reflexivity; try congruence.
  apply IH. congruence.
Qed.

Lemma swap_inv x i j x' :
  swap x i j = Ok x' ->
  exists xi xj,
    nth_error x i = Some xi /\ nth_error x j = Some xj
    /\ x' = setitem (setitem x i xj) j xi.
Proof.
  unfold swap, bind_res.
  destruct (getitem x j) as [xj| |] eqn:Ej; try discriminate.
  destruct (getitem x i) as [xi| |] eqn:Ei; try discriminate.
  intros [= <-]. apply getitem_inv in Ej, Ei.
  exists xi, xj. auto.
Qed.

(** After [x[i], x[j] = x[j], x[i]], position [i] holds the old [x[j]]. *)
Lemma swap_nth_i x i j x' :
  swap x i j = Ok x' -> nth_error x' i = nth_error x j.
Proof.
  intros H. destruct (swap_inv _ _ _ _ H) as (xi & xj & Ei & Ej & ->).
  assert (Hi : i < length x) by (apply nth_error_Some; congruence).
  destruct (Nat.eq_dec i j) as [<- | Hne].
  - rewrite nth_error_setitem_eq by (rewrite setitem_length; exact Hi).
    congruence.
  - rewrite nth_error_setitem_neq by exact Hne.
    rewrite nth_error_setitem_eq by exact Hi. congruence.
Qed.

Lemma swap_nth_other x i j x' k :
  swap x i j = Ok x' -> k <> i -> k <> j -> nth_error x' k = nth_error x k.
Proof.
  intros H Hi Hj. destruct (swap_inv _ _ _ _ H) as (xi & xj & _ & _ & ->).
  rewrite !nth_error_setitem_neq by assumption. reflexivity.
Qed.

(** The steps [i, ..., 1] leave every position above [i] as it is. *)
Lemma shuffle_from_above {G : RandomGen} i :
  forall x s y s',
    shuffle_from i x s = Ok (y, s') ->
    forall k, i < k -> nth_error y k = nth_error x k.
Proof.
  induction i as [|i IH]; intros x s y s' H k Hk.
  - cbn in H. injection H as <- _. reflexivity.
  - cbn [shuffle_from] in H. rewrite bind_rand_draw in H.
    pose proof (@randbelow_lt _ (S i + 1) s ltac:(lia)) as Hj.
    destruct (randbelow (S i + 1) s) as [j s1]; cbn [fst snd] in *.
    destruct (swap x (S i) j) as [x1| |] eqn:E1; try discriminate H.
    rewrite (bind_rand_lift _ _ _ _ eq_refl) in H.
    rewrite (IH _ _ _ _ H k) by lia.
    apply (swap_nth_other _ _ _ _ _ E1); lia.
Qed.

(** An answer within the range is what the replayed stream returns. *)
Lemma replay_draw sc0 i j (t : list nat) :
  j <= i -> @randbelow (replay sc0) (i + 1) (j :: t) = (j, t).
Proof.
  intros H. cbn [randbelow replay hd tl].
  rewrite Nat.min_r by lia. reflexivity.
Qed.

Lemma shuffle_answers_cons i sc :
  shuffle_answers (S i) sc = true ->
  exists j t, sc = j :: t /\ j <= S i /\ shuffle_answers i t = true.
Proof.
  destruct sc as [|j t]; [discriminate|]. cbn [shuffle_answers].
  intros H. apply andb_true_iff in H. destruct H as [Hj Ht].
  apply Nat.leb_le in Hj. eauto.
Qed.

(** On a list without repetitions, different answers give different
    results. *)
Lemma shuffle_from_inj sc0 sc1 i :
  forall x sc sc' y r r',
    NoDup x ->
    shuffle_answers i sc = true -> shuffle_answers i sc' = true ->
    @shuffle_from (replay sc0) A i x sc = Ok (y, r) ->
    @shuffle_from (replay sc1) A i x sc' = Ok (y, r') ->
    sc = sc'.
Proof.
  induction i as [|i IH]; intros x sc sc' y r r' Hnd Ha Ha' H H'.
  - destruct sc; [|discriminate]. destruct sc'; [|discriminate]. reflexivity.
  - destruct (shuffle_answers_cons _ _ Ha) as (j & t & -> & Hj & Ht).
    destruct (shuffle_answers_cons _ _ Ha') as (j' & t' & -> & Hj' & Ht').
    pose proof (shuffle_from_above (G := replay sc0) _ _ _ _ _ H) as Hab.
    pose proof (shuffle_from_above (G := replay sc1) _ _ _ _ _ H') as Hab'.
    cbn [shuffle_from] in H, H'.
    rewrite bind_rand_draw, (replay_draw sc0 (S i) j t Hj) in H.
    rewrite bind_rand_draw, (replay_draw sc1 (S i) j' t' Hj') in H'.
    cbn [fst snd] in H, H'.
    destruct (swap x (S i) j) as [x1| |] eqn:E1; try discriminate H.
    destruct (swap x (S i) j') as [x1'| |] eqn:E1'; try discriminate H'.
    rewrite (bind_rand_lift _ _ _ _ eq_refl) in H.
    rewrite (bind_rand_lift _ _ _ _ eq_refl) in H'.
    pose proof (shuffle_from_above (G := replay sc0) _ _ _ _ _ H (S i)
                  (Nat.lt_succ_diag_r i)) as Hy.
    pose proof (shuffle_from_above (G := replay sc1) _ _ _ _ _ H' (S i)
                  (Nat.lt_succ_diag_r i)) as Hy'.
    rewrite (swap_nth_i _ _ _ _ E1) in Hy.
    rewrite (swap_nth_i _ _ _ _ E1') in Hy'.
    assert (Ejj : j = j').
    { destruct (swap_inv _ _ _ _ E1) as (xi & xj & _ & Ej & _).
      apply (proj1 (NoDup_nth_error x) Hnd).
      - apply nth_error_Some. congruence.
      - congruence. }
    subst j'. rewrite E1 in E1'. injection E1' as <-.
    f_equal.
    apply (IH x1 t t' y r r'); try assumption.
    eapply Permutation_NoDup; [apply (swap_perm _ _ _ _ E1)|exact Hnd].
Qed.

(** The result depends on the stream only through its answers. *)
Lemma shuffle_from_draws {G : RandomGen} i :
  forall x s y s',
    shuffle_from i x s = Ok (y, s') ->
    forall sc0 rest,
      @shuffle_from (replay sc0) A i x (shuffle_draws i s ++ rest)
      = Ok (y, rest).
Proof.
  induction i as [|i IH]; intros x s y s' H sc0 rest.
  - cbn in H. injection H as <- _. reflexivity.
  - cbn [shuffle_from] in H. rewrite bind_rand_draw in H.
    cbn [shuffle_draws app shuffle_from].
    pose proof (@randbelow_lt _ (S i + 1) s ltac:(lia)) as Hj.
    destruct (randbelow (S i + 1) s) as [j s1]; cbn [fst snd] in *.
    rewrite bind_rand_draw, (replay_draw sc0 (S i) j _ ltac:(lia)).
    cbn [fst snd].
    destruct (swap x (S i) j) as [x1| |] eqn:E1; try discriminate H.
    rewrite (bind_rand_lift _ _ _ _ eq_refl) in H.
    rewrite (bind_rand_lift _ _ _ _ eq_refl).
    apply (IH _ _ _ _ H).
Qed.

End Positions.

Lemma shuffle_draws_answers {G : RandomGen} i :
  forall s, shuffle_answers i (shuffle_draws i s) = true.
Proof.
  induction i as [|i IH]; intros s; [reflexivity|].
  cbn [shuffle_draws shuffle_answers]. rewrite IH, andb_true_r.
  apply Nat.leb_le.
  pose proof (@randbelow_lt _ (S i + 1) s ltac:(lia)). lia.
Qed.

(** [shuffle] moves the elements without looking at them. *)
Lemma setitem_map {A B} (f : A -> B) (x : list A) i v :
  setitem (map f x) i (f v) = map f (setitem x i v).
Proof.
  revert i; induction x as [|h t IH]; intros [|i]; simpl; try reflexivity.
  rewrite IH. reflexivity.
Qed.

Lemma swap_map {A B} (f : A -> B) (x : list A) i j x' :
  swap x i j = Ok x' -> swap (map f x) i j = Ok (map f x').
Proof.
  intros H. destruct (swap_inv _ _ _ _ H) as (xi & xj & Ei & Ej & ->).
  unfold swap, getitem. rewrite !nth_error_map, Ei, Ej. simpl.
  rewrite !setitem_map. reflexivity.
Qed.

Lemma shuffle_from_map {G : RandomGen} {A B} (f : A -> B) i :
  forall (x : list A) s y s',
    shuffle_from i x s = Ok (y, s') ->
    shuffle_from i (map f x) s = Ok (map f y, s').
Proof.
  induction i as [|i IH]; intros x s y s' H.
  - cbn in H. injection H as <- <-. reflexivity.
  - cbn [shuffle_from] in H. rewrite bind_rand_draw in H.
    cbn [shuffle_from]. rewrite bind_rand_draw.
    destruct (randbelow (S i + 1) s) as [j s1]; cbn [fst snd] in *.
    destruct (swap x (S i) j) as [x1| |] eqn:E1; try discriminate H.
    rewrite (bind_rand_lift _ _ _ _ eq_refl) in H.
    rewrite (bind_rand_lift _ _ _ _ (swap_map f _ _ _ _ E1)).
    apply (IH _ _ _ _ H).
Qed.

Lemma shuffle_map {G : RandomGen} {A B} (f : A -> B) (x : list A) s y s' :
  shuffle x s = Ok (y, s') -> shuffle (map f x) s = Ok (map f y, s').
Proof.
  unfold shuffle. rewrite length_map. apply shuffle_from_map.
Qed.

Lemma wm_cells_positions :
  map (fun p => nth p (wm_cells WM_REPS) no_wm_cell) (seq 0 24)
  = wm_cells WM_REPS.
Proof. apply (nth_seq_all (wm_cells WM_REPS) no_wm_cell). Qed.

(** C9 (WM factorial completeness, one uniform permutation).  For every
    seed [gen_wm_trials] returns the 24 cells of the design, every
    (stimulus, ISI) pair exactly [WM_REPS = 3] times and nothing else; the
    list is the result of one [shuffle] call and nothing is done to it
    afterwards.  The order is the cell list read at the positions that
    Fisher-Yates makes of [0, ..., 23] from the stream's answers alone, one
    answer in [range(i + 1)] for each step [i = 23, ..., 1].  No order is
    excluded and none is favoured: every rearrangement of the 24 positions
    comes from exactly one sequence of such answers, so answers that are
    uniform and independent give each of the 24! rearrangements the same
    weight. *)
Theorem wm_factorial_complete :
  (forall (G : RandomGen) (seed : Z) (w : World),
     exists trials s' positions,
       gen_wm_trials seed w = Ok (trials, w)
       /\ shuffle (wm_cells WM_REPS) (Random seed) = Ok (trials, s')
       /\ Permutation (wm_cells WM_REPS) trials
       /\ length trials = 24
       /\ (forall x,
             count_occ wm_cell_eq_dec (map wm_cell_of trials) x
             = if in_wm_design x then 3 else 0)
       /\ shuffle_answers 23 (shuffle_draws 23 (Random seed)) = true
       /\ shuffle_on (shuffle_draws 23 (Random seed)) (seq 0 24)
          = Ok (positions, [])
       /\ Permutation (seq 0 24) positions
       /\ trials
          = map (fun p => nth p (wm_cells WM_REPS) no_wm_cell) positions)
  /\ (forall positions : list nat,
        Permutation (seq 0 24) positions ->
        exists script,
          shuffle_answers 23 script = true
          /\ shuffle_on script (seq 0 24) = Ok (positions, [])
          /\ (forall seed w,
                @gen_wm_trials (replay script) seed w
                = Ok (map (fun p => nth p (wm_cells WM_REPS) no_wm_cell)
                        positions, w))
          /\ (forall script',
                shuffle_answers 23 script' = true ->
                shuffle_on script' (seq 0 24) = Ok (positions, []) ->
                script' = script)).
Proof.
  split.
  - intros G seed w.
    destruct (shuffle_spec (seq 0 24) (Random seed))
      as (positions & s' & Ep & Pp).
    pose proof (shuffle_map (fun p => nth p (wm_cells WM_REPS) no_wm_cell)
                  _ _ _ _ Ep) as Et.
    rewrite wm_cells_positions in Et.
    assert (Pt : Permutation (wm_cells WM_REPS)
                   (map (fun p => nth p (wm_cells WM_REPS) no_wm_cell)
                      positions)).
    { rewrite <- wm_cells_positions at 1. apply Permutation_map. exact Pp. }
    eexists _, s', positions.
    split; [unfold gen_wm_trials; apply (with_Random_ok _ _ _ _ _ Et)|].
    split; [exact Et|]. split; [exact Pt|].
    split; [rewrite <- (Permutation_length Pt); reflexivity|].
    split.
    { intros x.
      rewrite <- (proj1 (Permutation_count_occ wm_cell_eq_dec _ _)
                    (Permutation_map wm_cell_of Pt) x).
      apply count_occ_wm_cells. }
    split; [apply shuffle_draws_answers|].
    split; [|split; [exact Pp|reflexivity]].
    unfold shuffle_on, shuffle.
    pose proof (shuffle_from_draws 23 _ _ _ _ Ep
                  (shuffle_draws 23 (Random seed)) []) as Hd.
    rewrite app_nil_r in Hd. exact Hd.
  - intros positions Pp.
    destruct (shuffle_reach _ _ Pp) as (script & Ha & Hs).
    change (length (seq 0 24) - 1) with 23 in Ha.
    specialize (Hs script []). rewrite app_nil_r in Hs.
    exists script. split; [exact Ha|]. split; [exact Hs|]. split.
    + intros seed w. unfold gen_wm_trials.
      pose proof (shuffle_map (G := replay script)
                    (fun p => nth p (wm_cells WM_REPS) no_wm_cell)
                    _ _ _ _ Hs) as Et.
      rewrite wm_cells_positions in Et.
      apply (with_Random_ok (G := replay script) seed _ _ _ w Et).
    + intros script' Ha' Hs'.
      apply (shuffle_from_inj script' script 23 (seq 0 24) script' script
               positions [] []); try assumption.
      apply seq_NoDup.
Qed.

Lemma wm_factorial_complete_witness :
  Permutation (seq 0 24) (rev (seq 0 24))
  /\ exists script,
       shuffle_answers 23 script = true
       /\ shuffle_on script (seq 0 24) = Ok (rev (seq 0 24), []).
Proof.
  split; [apply Permutation_rev|].
  destruct (proj2 wm_factorial_complete (rev (seq 0 24))
              (Permutation_rev _)) as (script & Ha & Hs & _).
  exists script. split; [exact Ha|exact Hs].
Defined.
